(** * juju-time: keyed time queue, schedule and exponential backoff

    A shallow embedding of the Go packages [timequeue] and [schedule]
    (github.com/axw/juju-time) together with the properties their
    specification states about them.

    Conventions of the embedding:
    - [time.Duration] is Go's [int64] count of nanoseconds: a [Z] with the
      wrap-around of 64-bit signed arithmetic written out ([wrap64]).
    - [time.Time] is an instant on the time line, a [Z] counted in
      nanoseconds; the bounds of Go's representation are not modelled.
    - Slice indices and lengths are [nat]: a slice of pointers is far
      shorter than 2^62, so the index arithmetic of [container/heap]
      ([2*i+1], [(j-1)/2]) never wraps.  [(j-1)/2] at [j = 0] is [0] both
      with Go's truncating division and with [nat] subtraction.
    - A [*queueItem] is a location in an explicit store, so that the slice
      and the map of a queue share the items they point to. *)

From stdpp Require Import gmap list.
From Stdlib Require Import ZArith Lia ZifyNat Sorting.Sorted.

(** [lia] with division by a constant, for the parent of a heap position. *)
Ltac Zify.zify_post_hook ::= Z.div_mod_to_equations.

(** ** Durations and instants *)

Abbreviation Duration := Z (only parsing).
Abbreviation Time := Z (only parsing).

Definition wrap64 (z : Z) : Z := ((z + 2 ^ 63) mod 2 ^ 64 - 2 ^ 63)%Z.
Definition minDuration : Duration := (- 2 ^ 63)%Z.
Definition maxDuration : Duration := (2 ^ 63 - 1)%Z.

Definition Nanosecond : Duration := 1%Z.
Definition Second : Duration := (1000000000 * Nanosecond)%Z.
Definition Minute : Duration := (60 * Second)%Z.

(** [Time.Add], [Time.Sub] (which saturates at the extreme durations),
    [Time.Before] and [Time.After] of Go's [time] package. *)
Definition Time_Add (t : Time) (d : Duration) : Time := (t + d)%Z.
Definition Time_Sub (t u : Time) : Duration :=
  if (maxDuration <? t - u)%Z then maxDuration
  else if (t - u <? minDuration)%Z then minDuration
  else (t - u)%Z.
Definition Time_Before (t u : Time) : bool := (t <? u)%Z.
Definition Time_After (t u : Time) : bool := (u <? t)%Z.

(** ** Exponential backoff (package schedule) *)

Definition minRetryDelay : Duration := (30 * Second)%Z.
Definition maxRetryDelay : Duration := (30 * Minute)%Z.

(** [type ExponentialBackoff time.Duration] *)
Abbreviation ExponentialBackoff := Duration (only parsing).

(** [func (e *ExponentialBackoff) Delay() time.Duration]: the receiver is
    passed in, and the pair of the returned duration and the updated
    receiver comes out. *)
Definition ExponentialBackoff_Delay (e : ExponentialBackoff)
  : Duration * ExponentialBackoff :=
  let current := e in
  let e' :=
    if (e <? minRetryDelay)%Z then minRetryDelay
    else
      let e2 := wrap64 (e * 2) in
      if (maxRetryDelay <? e2)%Z then maxRetryDelay else e2 in
  (current, e').

(** [n] successive calls of [Delay] on the same receiver: the durations
    returned, in call order, and the receiver left behind. *)
Fixpoint Delay_calls (n : nat) (e : ExponentialBackoff)
  : list Duration * ExponentialBackoff :=
  match n with
  | O => ([], e)
  | S n' =>
      let '(r, e1) := ExponentialBackoff_Delay e in
      let '(rs, e2) := Delay_calls n' e1 in
      (r :: rs, e2)
  end.

(** The zero value of the type, as in [var e ExponentialBackoff]. *)
Definition fresh : ExponentialBackoff := 0%Z.

(** ** The time queue (package timequeue) *)

(** A [*queueItem]: an address in the store of a queue. *)
Abbreviation loc := nat (only parsing).

Section TimeQueue.

(** Keys are Go's [interface{}] used as map keys, hence comparable and
    hashable; values are opaque; [Chan] is the type of the wait handles
    ([<-chan time.Time]) a clock hands out. *)
Context {K : Type} `{Countable K} {V : Type} {Chan : Type}.

(** Modelled from the spec: the interface [clock.Clock] (package
    github.com/axw/juju-time/clock), whose declaration is missing.  It
    gives the current time, [Now()], and a signal that resolves once a
    duration has elapsed, [After(d)]; the handle of [After] is never nil.
    A value of this record is the clock as it stands when a method of the
    queue or of the schedule runs. *)
Record Clock := { Now : Time; After : Duration -> Chan }.

(** [type queueItem struct { i int; key, value interface{}; t time.Time }];
    the fields carry the prefix [item_]. *)
Record queueItem := {
  item_i : nat;
  item_key : K;
  item_value : V;
  item_t : Time
}.

(** [type Queue struct { time clock.Clock; items queueItems;
    m map[interface{}]*queueItem }] with the fields prefixed by [q_], and
    [q_store], the [queueItem] objects the pointers in [q_items] and [q_m]
    refer to: address [l] holds [q_store !! l]. *)
Record Queue := {
  q_time : Clock;
  q_items : list loc;
  q_m : gmap K loc;
  q_store : list queueItem
}.

(** *** Panics and the monad of queue operations *)

Inductive panic :=
| DuplicateKey (k : K)   (* panic(errors.Errorf("duplicate key %v", key)) *)
| IndexOutOfRange        (* run-time panic of a slice index *)
| NilDereference.        (* run-time panic of a pointer without an object *)

Inductive result (A : Type) :=
| Ok (a : A)
| Panic (p : panic).
Arguments Ok {A} a.
Arguments Panic {A} p.

(** A method runs on a queue and hands back its result, or its panic,
    together with the queue as the method left it. *)
Definition M (A : Type) := Queue -> result A * Queue.

Definition ret {A} (a : A) : M A := fun q => (Ok a, q).
Definition raise {A} (p : panic) : M A := fun q => (Panic p, q).
Definition bind {A B} (c : M A) (f : A -> M B) : M B :=
  fun q =>
    match c q with
    | (Ok a, q') => f a q'
    | (Panic p, q') => (Panic p, q')
    end.

Notation "'let*' x ':=' c 'in' k" := (bind c (fun x => k))
  (at level 10, x name, c at level 100, k at level 200).
Notation "c ';;;' k" := (bind c (fun _ => k))
  (at level 100, k at level 200, right associativity).

(** Reads and writes of the fields. *)
Definition upd_items (s : list loc) (q : Queue) : Queue :=
  {| q_time := q_time q; q_items := s; q_m := q_m q; q_store := q_store q |}.
Definition upd_m (m : gmap K loc) (q : Queue) : Queue :=
  {| q_time := q_time q; q_items := q_items q; q_m := m; q_store := q_store q |}.
Definition upd_store (st : list queueItem) (q : Queue) : Queue :=
  {| q_time := q_time q; q_items := q_items q; q_m := q_m q; q_store := st |}.

Definition get_items : M (list loc) := fun q => (Ok (q_items q), q).
Definition set_items (s : list loc) : M unit := fun q => (Ok tt, upd_items s q).
Definition get_m : M (gmap K loc) := fun q => (Ok (q_m q), q).
Definition set_m (m : gmap K loc) : M unit := fun q => (Ok tt, upd_m m q).
Definition get_time : M Clock := fun q => (Ok (q_time q), q).

(** [s[k]] *)
Definition index (k : nat) : M loc :=
  let* s := get_items in
  match s !! k with
  | Some l => ret l
  | None => raise IndexOutOfRange
  end.

(** [s[k] = l] *)
Definition assign (k : nat) (l : loc) : M unit :=
  let* s := get_items in
  if decide (k < length s) then set_items (<[k:=l]> s)
  else raise IndexOutOfRange.

(** [*l] *)
Definition deref (l : loc) : M queueItem := fun q =>
  match q_store q !! l with
  | Some it => (Ok it, q)
  | None => (Panic NilDereference, q)
  end.

(** [l.i = v] *)
Definition with_i (v : nat) (it : queueItem) : queueItem :=
  {| item_i := v; item_key := item_key it; item_value := item_value it;
     item_t := item_t it |}.

Definition set_i (l : loc) (v : nat) : M unit := fun q =>
  match q_store q !! l with
  | Some it => (Ok tt, upd_store (<[l := with_i v it]> (q_store q)) q)
  | None => (Panic NilDereference, q)
  end.

(** [&queueItem{...}]: a new object at a new address. *)
Definition alloc (it : queueItem) : M loc := fun q =>
  (Ok (length (q_store q)), upd_store (q_store q ++ [it]) q).

(** *** The methods of [queueItems] (sort.Interface, Push and Pop) *)

Definition queueItems_Len : M nat :=
  let* s := get_items in ret (length s).

Definition queueItems_Less (i j : nat) : M bool :=
  let* a := index i in
  let* ia := deref a in
  let* b := index j in
  let* ib := deref b in
  ret (Time_Before (item_t ia) (item_t ib)).

Definition queueItems_Swap (i j : nat) : M unit :=
  (* s[i], s[j] = s[j], s[i] *)
  let* b := index j in
  let* a := index i in
  assign i b ;;;
  assign j a ;;;
  (* s[i].i = i *)
  let* x := index i in
  set_i x i ;;;
  (* s[j].i = j *)
  let* y := index j in
  set_i y j.

Definition queueItems_Push (x : loc) : M unit :=
  let* n := queueItems_Len in
  set_i x n ;;;
  let* s := get_items in
  set_items (s ++ [x]).

Definition queueItems_Pop : M loc :=
  let* len := queueItems_Len in
  let n := len - 1 in
  let* x := index n in
  let* s := get_items in
  set_items (take n s) ;;;
  ret x.

(** *** Go's [container/heap], on [queueItems]

    The package belongs to Go's standard library and not to the
    repository; [up], [down], [Push], [Pop] and [Remove] are transcribed
    from it as it stands in current Go releases, with the methods of
    [heap.Interface] being those of [queueItems].  The two loops run on
    fuel: [up] from [j] needs at most [j + 1] rounds and [down] below [n]
    at most [n] ([heap_up_loop_fuel], [heap_down_loop_fuel]). *)

Fixpoint heap_up_loop (fuel : nat) (j : nat) : M unit :=
  match fuel with
  | O => ret tt
  | S fuel' =>
      let i := (j - 1) / 2 in (* parent *)
      if decide (i = j) then ret tt
      else
        let* lt := queueItems_Less j i in
        if negb lt then ret tt
        else queueItems_Swap i j ;;; heap_up_loop fuel' i
  end.

Definition heap_up (j : nat) : M unit := heap_up_loop (S j) j.

Fixpoint heap_down_loop (fuel : nat) (i n : nat) : M nat :=
  match fuel with
  | O => ret i
  | S fuel' =>
      let j1 := 2 * i + 1 in
      if decide (n <= j1) then ret i
      else
        let* j := (* left child, or the right one when it is smaller *)
          (let j2 := j1 + 1 in
           if decide (j2 < n) then
             let* lt := queueItems_Less j2 j1 in
             ret (if lt then j2 else j1)
           else ret j1) in
        let* lt := queueItems_Less j i in
        if negb lt then ret i
        else queueItems_Swap i j ;;; heap_down_loop fuel' j n
  end.

Definition heap_down (i0 n : nat) : M bool :=
  let* i := heap_down_loop n i0 n in
  ret (bool_decide (i0 < i)).

Definition heap_Push (x : loc) : M unit :=
  queueItems_Push x ;;;
  let* len := queueItems_Len in
  heap_up (len - 1).

Definition heap_Pop : M loc :=
  let* len := queueItems_Len in
  let n := len - 1 in
  queueItems_Swap 0 n ;;;
  heap_down 0 n ;;;
  queueItems_Pop.

Definition heap_Remove (i : nat) : M loc :=
  let* len := queueItems_Len in
  let n := len - 1 in
  (if decide (n <> i) then
     queueItems_Swap i n ;;;
     let* moved := heap_down i n in
     if negb moved then heap_up i else ret tt
   else ret tt) ;;;
  queueItems_Pop.

(** *** The methods of [Queue] *)

Definition Queue_New (clock : Clock) : Queue :=
  {| q_time := clock; q_items := []; q_m := ∅; q_store := [] |}.

(** [Next]: [None] is the nil channel. *)
Definition Queue_Next : M (option Chan) :=
  let* len := queueItems_Len in
  if decide (0 < len) then
    let* r := index 0 in
    let* it := deref r in
    let* c := get_time in
    ret (Some (After c (Time_Sub (item_t it) (Now c))))
  else ret None.

(** The loop of [Ready] pops one item per round, so the length of the
    slice plus one is fuel enough: no item that is due is left behind
    ([Queue_Ready_spec]). *)
Fixpoint Ready_loop (fuel : nat) (now : Time) (ready : list V) : M (list V) :=
  match fuel with
  | O => ret ready
  | S fuel' =>
      let* len := queueItems_Len in
      if decide (0 < len) then
        let* r := index 0 in
        let* it := deref r in
        if negb (Time_After (item_t it) now) then
          let* x := heap_Pop in
          let* item := deref x in
          let* mp := get_m in
          set_m (delete (item_key item) mp) ;;;
          Ready_loop fuel' now (ready ++ [item_value item])
        else ret ready
      else ret ready
  end.

Definition Queue_Ready (now : Time) : M (list V) :=
  let* len := queueItems_Len in
  Ready_loop (S len) now [].

Definition Queue_Add (key : K) (value : V) (t : Time) : M unit :=
  let* mp := get_m in
  match mp !! key with
  | Some _ => raise (DuplicateKey key)
  | None =>
      let* item := alloc {| item_i := 0; item_key := key;
                            item_value := value; item_t := t |} in
      let* mp := get_m in
      set_m (<[key := item]> mp) ;;;
      heap_Push item
  end.

Definition Queue_Remove (key : K) : M unit :=
  let* mp := get_m in
  match mp !! key with
  | Some item =>
      let* it := deref item in
      heap_Remove (item_i it) ;;;
      let* mp := get_m in
      set_m (delete key mp)
  | None => ret tt
  end.

(** ** The schedule (package schedule) *)

(** [type Operation interface { Key() interface{}; Delay() time.Duration }],
    for the operations held as the values of the queue.  [Delay] may
    change its receiver, as [ExponentialBackoff.Delay] does, and hands
    the receiver back next to the duration. *)
Class Operation := {
  Key : V -> K;
  Delay : V -> Duration * V
}.

(** [type Schedule struct { time clock.Clock; q *timequeue.Queue }];
    the schedule owns its queue. *)
Record Schedule := {
  s_time : Clock;
  s_q : Queue
}.

Definition NewSchedule (clock : Clock) : Schedule :=
  {| s_time := clock; s_q := Queue_New clock |}.

(** A method of the queue run on the queue of a schedule. *)
Definition on_queue {A} (c : M A) (s : Schedule) : result A * Schedule :=
  let '(r, q') := c (s_q s) in
  (r, {| s_time := s_time s; s_q := q' |}).

Definition Schedule_Next (s : Schedule) : result (option Chan) * Schedule :=
  on_queue Queue_Next s.

(** The values of the queue are the operations that were added: the type
    assertion [item.(Operation)] holds for each. *)
Definition Schedule_Ready (now : Time) (s : Schedule)
  : result (list V) * Schedule :=
  on_queue (Queue_Ready now) s.

(** [func (s *Schedule) Add(op Operation)]: the method has no result.  The
    operation comes back as [Delay] left it, and it is the operation in
    that state which the queue holds. *)
Definition Schedule_Add {O : Operation} (op : V) (s : Schedule)
  : result unit * Schedule * V :=
  let key := Key op in
  let '(delay, op') := Delay op in
  (on_queue (Queue_Add key op' (Time_Add (Now (s_time s)) delay)) s, op').

Definition Schedule_Remove (key : K) (s : Schedule) : result unit * Schedule :=
  on_queue (Queue_Remove key) s.

(** ** Specification predicates *)

(** What [Swap] and the heap never change in an item. *)
Definition payload (it : queueItem) : K * V * Time :=
  (item_key it, item_value it, item_t it).
Definition payloads (q : Queue) : list (K * V * Time) := payload <$> q_store q.

(** The item at position [k] of the slice. *)
Definition item_at (q : Queue) (k : nat) : option queueItem :=
  q_items q !! k ≫= fun l => q_store q !! l.

(** The deadline of the item at address [l], and the deadlines along the
    slice. *)
Definition deadline (q : Queue) (l : loc) : Time :=
  from_option item_t 0%Z (q_store q !! l).
Definition times (q : Queue) : list Time := deadline q <$> q_items q.

(** [items[k].i == k] at every position. *)
Definition positions_recorded (q : Queue) : Prop :=
  forall k l, q_items q !! k = Some l ->
    exists it, q_store q !! l = Some it /\ item_i it = k.

(** The key index holds exactly the items of the slice, each under its
    key. *)
Definition index_matches (q : Queue) : Prop :=
  forall key l, q_m q !! key = Some l <->
    l ∈ q_items q /\ item_key <$> q_store q !! l = Some key.

(** No item is earlier than its parent. *)
Definition heap_ordered (q : Queue) : Prop :=
  forall k c p, 0 < k ->
    item_at q k = Some c -> item_at q ((k - 1) / 2) = Some p ->
    (item_t p <= item_t c)%Z.

Definition wf (q : Queue) : Prop :=
  positions_recorded q /\ index_matches q /\ heap_ordered q.

(** What the methods of [queueItems] and [container/heap] leave alone. *)
Definition frame (q q' : Queue) : Prop :=
  q_time q' = q_time q /\ q_m q' = q_m q /\ payloads q' = payloads q.

(** What a run of swaps below [n] does to the queue: the slice is
    permuted below [n], every item keeps its key, value and deadline, and
    every item records its new position. *)
Definition shuffled (n : nat) (q q' : Queue) : Prop :=
  frame q q' /\ positions_recorded q' /\
  q_items q' ≡ₚ q_items q /\
  (forall k, n <= k -> q_items q' !! k = q_items q !! k).

(** A run of calls on a queue; a panic of [Add] is recovered by the caller
    and the run goes on. *)
Inductive call :=
| CallAdd (key : K) (value : V) (t : Time)
| CallRemove (key : K)
| CallReady (now : Time)
| CallNext.

Definition do_call (c : call) (q : Queue) : Queue :=
  match c with
  | CallAdd key value t => (Queue_Add key value t q).2
  | CallRemove key => (Queue_Remove key q).2
  | CallReady now => (Queue_Ready now q).2
  | CallNext => (Queue_Next q).2
  end.

Definition do_calls (cs : list call) (q : Queue) : Queue :=
  foldl (fun q c => do_call c q) q cs.

(** The queue of a schedule is well formed and reads the clock of the
    schedule. *)
Definition schedule_ok (s : Schedule) : Prop :=
  wf (s_q s) /\ q_time (s_q s) = s_time s.

(** A run of calls on a schedule; a panic of [Add] is recovered by the
    caller and the run goes on. *)
Inductive schedule_call :=
| ScheduleAdd (op : V)
| ScheduleRemove (key : K)
| ScheduleReady (now : Time)
| ScheduleNext.

Definition do_schedule_call {O : Operation} (c : schedule_call)
  (s : Schedule) : Schedule :=
  match c with
  | ScheduleAdd op => (Schedule_Add op s).1.2
  | ScheduleRemove key => (Schedule_Remove key s).2
  | ScheduleReady now => (Schedule_Ready now s).2
  | ScheduleNext => (Schedule_Next s).2
  end.

Definition do_schedule_calls {O : Operation} (cs : list schedule_call)
  (s : Schedule) : Schedule :=
  foldl (fun s c => do_schedule_call c s) s cs.

End TimeQueue.

Arguments Ok {K A} a.
Arguments Panic {K A} p.

(** ** Binary heaps on a list of deadlines

    The shape of [container/heap]: the parent of position [k] is
    [(k - 1) / 2], and a list is heap ordered below [n] when no position
    under [n] is earlier than its parent. *)

Definition parent (k : nat) : nat := (k - 1) / 2.

Definition heap_on (ts : list Z) (n : nat) : Prop :=
  forall k, 0 < k < n -> (ts !!! parent k <= ts !!! k)%Z.

(** The list after [Swap i j]. *)
Definition exchange (ts : list Z) (i j : nat) : list Z :=
  <[j := ts !!! i]> (<[i := ts !!! j]> ts).

(** Heap order with one position [j] that may be earlier than its parent:
    the state of the loop of [up]. *)
Definition up_hole (ts : list Z) (n j : nat) : Prop :=
  (forall k, 0 < k < n -> k <> j -> (ts !!! parent k <= ts !!! k)%Z) /\
  (forall k, 0 < k < n -> parent k = j -> 0 < j ->
             (ts !!! parent j <= ts !!! k)%Z).

(** Heap order with one position [i] that may be out of order with its
    parent and with its children: the state of the loop of [down]. *)
Definition down_hole (ts : list Z) (n i : nat) : Prop :=
  (forall k, 0 < k < n -> parent k <> i -> k <> i ->
             (ts !!! parent k <= ts !!! k)%Z) /\
  (forall k, 0 < k < n -> parent k = i -> 0 < i ->
             (ts !!! parent i <= ts !!! k)%Z).


(** ** Concrete clocks, queues and operations

    A clock that stands at instant zero and whose handles are the
    durations asked for; keys and values are numbers. *)

Definition clock0 : @Clock Z := {| Now := 0%Z; After := fun d => d |}.

(** Two items: key 1 due at 300 and key 2 due at 100. *)
Definition q_two : @Queue nat _ _ nat Z :=
  do_calls [CallAdd 1 10 300%Z; CallAdd 2 20 100%Z] (Queue_New clock0).

(** An operation with a constant delay, as [operation] in the tests: the
    pair of its key and its delay. *)
Definition constant_delay : @Operation nat (nat * Z) :=
  {| Key := fun op => op.1; Delay := fun op => (op.2, op) |}.

(** An operation that embeds an [ExponentialBackoff], as
    [exponentialBackoffOperation] in the tests: the pair of its key and
    the backoff state. *)
Definition backoff_operation : @Operation nat (nat * Z) :=
  {| Key := fun op => op.1;
     Delay := fun op =>
       let '(d, e) := ExponentialBackoff_Delay op.2 in (d, (op.1, e)) |}.

(** [n] rounds of [Add] then [Remove] of the same operation, as in
    [TestExponentialBackoff]: the deadlines the queue held. *)
Fixpoint add_remove_rounds (n : nat) (op : nat * Z)
  (s : @Schedule nat _ _ (nat * Z) Z) : list Z :=
  match n with
  | O => []
  | S n' =>
      let '(_, s1, op1) := Schedule_Add (O := backoff_operation) op s in
      let ts := times (s_q s1) in
      let '(_, s2) := Schedule_Remove (Key (Operation := backoff_operation) op1) s1 in
      ts ++ add_remove_rounds n' op1 s2
  end.

(** * Properties *)

Section HeapShape.
Implicit Types (ts : list Z) (i j k n : nat).

Lemma parent_lt k : 0 < k -> parent k < k.
Proof. unfold parent. lia. Qed.

Lemma parent_children k i :
  0 < k -> parent k = i <-> k = 2 * i + 1 \/ k = 2 * i + 2.
Proof. unfold parent. lia. Qed.

Lemma exchange_length ts i j : length (exchange ts i j) = length ts.
Proof. unfold exchange. by rewrite !length_insert. Qed.

Lemma exchange_lookup ts i j k :
  i < length ts -> j < length ts ->
  exchange ts i j !!! k =
  if decide (k = j) then ts !!! i
  else if decide (k = i) then ts !!! j else ts !!! k.
Proof.
  intros Hi Hj. unfold exchange.
  destruct (decide (k = j)) as [->|Hkj].
  - rewrite list_lookup_total_insert_eq; [done | by rewrite length_insert].
  - rewrite list_lookup_total_insert_ne by done.
    destruct (decide (k = i)) as [->|Hki].
    + by rewrite list_lookup_total_insert_eq.
    + by rewrite list_lookup_total_insert_ne.
Qed.

Lemma heap_on_root ts n : heap_on ts n -> forall k, k < n -> (ts !!! 0%nat <= ts !!! k)%Z.
Proof.
  intros Hh k. induction (lt_wf k) as [k _ IH]. intros Hk.
  destruct (decide (k = 0)) as [->|Hk0]; [lia |].
  pose proof (parent_lt k ltac:(lia)) as Hp.
  specialize (IH (parent k) Hp ltac:(lia)).
  specialize (Hh k ltac:(lia)). lia.
Qed.

Lemma heap_on_mono ts n n' : n' <= n -> heap_on ts n -> heap_on ts n'.
Proof. intros Hn Hh k Hk. apply Hh. lia. Qed.

Lemma heap_on_ext ts ts' n :
  (forall k, k < n -> ts' !!! k = ts !!! k) -> heap_on ts n -> heap_on ts' n.
Proof.
  intros He Hh k Hk.
  pose proof (parent_lt k ltac:(lia)).
  rewrite !He by lia. by apply Hh.
Qed.

Lemma heap_on_up_hole ts n j : heap_on ts n -> up_hole ts n j.
Proof.
  intros Hh. split.
  - intros k Hk _. by apply Hh.
  - intros k Hk Hp Hj. subst j.
    pose proof (parent_lt k ltac:(lia)).
    pose proof (Hh k Hk). pose proof (Hh (parent k) ltac:(lia)). lia.
Qed.

(** [up] stops: the heap is in order. *)
Lemma up_hole_done ts n j :
  up_hole ts n j ->
  (parent j = j \/ (ts !!! parent j <= ts !!! j)%Z) ->
  heap_on ts n.
Proof.
  intros [H1 H2] Hstop k Hk.
  destruct (decide (k = j)) as [->|Hkj]; [|by apply H1].
  destruct Hstop as [Hp|Hle]; [|done].
  pose proof (parent_lt j ltac:(lia)). lia.
Qed.

(** [up] swaps [j] with its parent: the hole moves to the parent. *)
Lemma up_hole_step ts n j :
  j < n -> n <= length ts -> parent j <> j ->
  up_hole ts n j ->
  (ts !!! j < ts !!! parent j)%Z ->
  up_hole (exchange ts (parent j) j) n (parent j).
Proof.
  intros Hj Hn Hpj [H1 H2] Hlt.
  assert (0 < j) as Hj0 by (destruct j; [done | lia]).
  pose proof (parent_lt j Hj0) as Hp.
  split.
  - intros k Hk Hkp.
    pose proof (parent_lt k ltac:(lia)) as Hpk.
    rewrite !exchange_lookup by lia.
    repeat case_decide; subst; try lia.
    + (* a child of j *) apply H2; [done | done | lia].
    + (* the sibling of j *)
      pose proof (H1 k Hk ltac:(done)) as Hx.
      match goal with H : parent k = parent j |- _ => rewrite H in Hx end. lia.
    + by apply H1.
  - intros k Hk Hkp Hp0.
    pose proof (parent_lt (parent j) Hp0) as Hpp.
    rewrite !exchange_lookup by lia.
    repeat case_decide; subst; try lia.
    + (* j itself *) apply H1; lia.
    + (* the sibling of j *)
      pose proof (H1 k Hk ltac:(done)) as Hx. rewrite Hkp in Hx.
      pose proof (H1 (parent j) ltac:(lia) ltac:(lia)). lia.
Qed.

(** [down] stops: the heap is in order when [i] is in order with its
    parent. *)
Lemma down_hole_done ts n i :
  down_hole ts n i ->
  (0 < i -> (ts !!! parent i <= ts !!! i)%Z) ->
  (forall k, 0 < k < n -> parent k = i -> (ts !!! i <= ts !!! k)%Z) ->
  heap_on ts n.
Proof.
  intros [H1 H2] Hup Hch k Hk.
  destruct (decide (k = i)) as [->|Hki]; [apply Hup; lia |].
  destruct (decide (parent k = i)) as [Hp|Hp].
  - rewrite Hp. by apply Hch.
  - by apply H1.
Qed.

(** [down] stops without having moved: what [up] needs holds. *)
Lemma down_hole_up_hole ts n i :
  down_hole ts n i ->
  (forall k, 0 < k < n -> parent k = i -> (ts !!! i <= ts !!! k)%Z) ->
  up_hole ts n i.
Proof.
  intros [H1 H2] Hch. split; [|done].
  intros k Hk Hki.
  destruct (decide (parent k = i)) as [Hp|Hp].
  - rewrite Hp. by apply Hch.
  - by apply H1.
Qed.

(** [down] swaps [i] with its earliest child [j]: the hole moves to [j],
    which is then in order with its parent. *)
Lemma down_hole_step ts n i j :
  j < n -> n <= length ts -> 0 < j -> parent j = i ->
  down_hole ts n i ->
  (forall k, 0 < k < n -> parent k = i -> (ts !!! j <= ts !!! k)%Z) ->
  (ts !!! j < ts !!! i)%Z ->
  down_hole (exchange ts i j) n j /\
  (exchange ts i j !!! parent j <= exchange ts i j !!! j)%Z /\
  (0 < i -> (exchange ts i j !!! parent i <= exchange ts i j !!! i)%Z).
Proof.
  intros Hj Hn Hj0 Hpj [H1 H2] Hmin Hlt.
  pose proof (parent_lt j Hj0) as Hp. rewrite Hpj in Hp.
  split; [split | split].
  - intros k Hk Hkp Hkj.
    pose proof (parent_lt k ltac:(lia)) as Hpk.
    rewrite !exchange_lookup by lia.
    repeat case_decide; subst; try lia;
      first [apply Hmin; lia | apply H2; lia | apply H1; lia].
  - intros k Hk Hkp _.
    pose proof (parent_lt k ltac:(lia)) as Hpk.
    rewrite !exchange_lookup by lia.
    repeat case_decide; subst; try lia.
    apply H1; lia.
  - rewrite !exchange_lookup by lia.
    repeat case_decide; subst; lia.
  - intros Hi0. pose proof (parent_lt i Hi0) as Hpi.
    rewrite !exchange_lookup by lia.
    repeat case_decide; subst; try lia.
    apply H2; lia.
Qed.

(** The last position has been swapped into [i]: the only fault below [n]
    is at [i]. *)
Lemma down_hole_exchange_last ts n i :
  heap_on ts (S n) -> i <= n -> S n <= length ts ->
  down_hole (exchange ts i n) n i.
Proof.
  intros Hh Hi Hn. split.
  - intros k Hk Hpk Hki. pose proof (parent_lt k ltac:(lia)).
    rewrite !exchange_lookup by lia.
    repeat case_decide; subst; try lia. apply Hh. lia.
  - intros k Hk Hpk Hi0. pose proof (parent_lt k ltac:(lia)).
    pose proof (parent_lt i Hi0).
    rewrite !exchange_lookup by lia.
    repeat case_decide; subst; try lia.
    pose proof (Hh k ltac:(lia)). pose proof (Hh (parent k) ltac:(lia)). lia.
Qed.

End HeapShape.

Section TimeQueueProperties.

Context {K : Type} `{Countable K} {V : Type} {Chan : Type}.

Implicit Types (q : @Queue K _ _ V Chan) (it : @queueItem K V).
Implicit Types (s : @Schedule K _ _ V Chan) (clock : @Clock Chan).
Implicit Types (cs : list (@call K V)).

Notation "'let*' x ':=' c 'in' k" := (bind c (fun x => k))
  (at level 10, x name, c at level 100, k at level 200).
Notation "c ';;;' k" := (bind c (fun _ => k))
  (at level 100, k at level 200, right associativity).

(** ** The monad and the fields *)

Lemma bind_ok {A B} (c : M A) (f : A -> M B) q a q' :
  c q = (Ok a, q') -> bind c f q = f a q'.
Proof. intros E. unfold bind. by rewrite E. Qed.

Lemma bind_panic {A B} (c : M A) (f : A -> M B) q p q' :
  c q = (Panic p, q') -> bind c f q = (Panic p, q').
Proof. intros E. unfold bind. by rewrite E. Qed.

Lemma index_ok q k l : q_items q !! k = Some l -> index k q = (Ok l, q).
Proof. intros E. unfold index, bind, get_items. by rewrite E. Qed.

Lemma deref_ok q l it : q_store q !! l = Some it -> deref l q = (Ok it, q).
Proof. intros E. unfold deref. by rewrite E. Qed.

Lemma assign_ok q k l :
  k < length (q_items q) ->
  assign k l q = (Ok tt, upd_items (<[k:=l]> (q_items q)) q).
Proof.
  intros Hk. unfold assign, bind, get_items.
  by rewrite decide_True.
Qed.

Lemma set_i_ok q l v it :
  q_store q !! l = Some it ->
  set_i l v q = (Ok tt, upd_store (<[l := with_i v it]> (q_store q)) q).
Proof. intros E. unfold set_i. by rewrite E. Qed.

Lemma payload_with_i v it : payload (with_i v it) = payload it.
Proof. reflexivity. Qed.

Lemma payloads_set_i q l v it :
  q_store q !! l = Some it ->
  payloads (upd_store (<[l := with_i v it]> (q_store q)) q) = payloads q.
Proof.
  intros E. unfold payloads. simpl.
  rewrite list_fmap_insert, payload_with_i.
  apply list_insert_id. by rewrite list_lookup_fmap, E.
Qed.

Lemma payloads_lookup q q' l :
  payloads q' = payloads q ->
  payload <$> q_store q' !! l = payload <$> q_store q !! l.
Proof.
  intros E. unfold payloads in E.
  by rewrite <- !list_lookup_fmap, E.
Qed.

Lemma deadline_payloads q q' l :
  payloads q' = payloads q -> deadline q' l = deadline q l.
Proof.
  intros E. apply (payloads_lookup _ _ l) in E. unfold deadline.
  revert E. unfold payload.
  destruct (q_store q' !! l), (q_store q !! l); simpl; congruence.
Qed.

Lemma key_payloads q q' l :
  payloads q' = payloads q ->
  item_key <$> q_store q' !! l = item_key <$> q_store q !! l.
Proof.
  intros E. apply (payloads_lookup _ _ l) in E.
  revert E. unfold payload.
  destruct (q_store q' !! l), (q_store q !! l); simpl; congruence.
Qed.

Lemma value_payloads q q' l :
  payloads q' = payloads q ->
  item_value <$> q_store q' !! l = item_value <$> q_store q !! l.
Proof.
  intros E. apply (payloads_lookup _ _ l) in E.
  revert E. unfold payload.
  destruct (q_store q' !! l), (q_store q !! l); simpl; congruence.
Qed.

Lemma frame_refl q : frame q q.
Proof. done. Qed.

Lemma frame_trans q1 q2 q3 : frame q1 q2 -> frame q2 q3 -> frame q1 q3.
Proof. intros (?&?&?) (?&?&?). repeat split; congruence. Qed.

Lemma times_length q : length (times q) = length (q_items q).
Proof. unfold times. by rewrite length_fmap. Qed.

Lemma times_lookup q k l :
  q_items q !! k = Some l -> times q !!! k = deadline q l.
Proof.
  intros E. apply list_lookup_total_correct.
  unfold times. by rewrite list_lookup_fmap, E.
Qed.

Lemma times_frame q q' :
  q_items q' = q_items q -> payloads q' = payloads q -> times q' = times q.
Proof.
  intros Ei Ep. unfold times. rewrite Ei.
  apply list_fmap_ext. intros _ l _. by apply deadline_payloads.
Qed.

(** ** Positions *)

Lemma positions_lt q k l :
  positions_recorded q -> q_items q !! k = Some l -> l < length (q_store q).
Proof.
  intros Hp E. destruct (Hp _ _ E) as (it & Hit & _).
  by apply lookup_lt_Some in Hit.
Qed.

Lemma positions_inj q k1 k2 l :
  positions_recorded q ->
  q_items q !! k1 = Some l -> q_items q !! k2 = Some l -> k1 = k2.
Proof.
  intros Hp E1 E2.
  destruct (Hp _ _ E1) as (it1 & Hit1 & <-).
  destruct (Hp _ _ E2) as (it2 & Hit2 & <-). congruence.
Qed.

Lemma positions_NoDup q : positions_recorded q -> NoDup (q_items q).
Proof.
  intros Hp. apply NoDup_alt. intros k1 k2 l. by apply positions_inj.
Qed.

Lemma heap_ordered_times q :
  positions_recorded q ->
  heap_ordered q <-> heap_on (times q) (length (q_items q)).
Proof.
  intros Hp. split.
  - intros Hh k Hk.
    pose proof (parent_lt k ltac:(lia)) as Hpk.
    destruct (lookup_lt_is_Some_2 (q_items q) k ltac:(lia)) as [c Hc].
    destruct (lookup_lt_is_Some_2 (q_items q) (parent k) ltac:(lia)) as [p Hpp].
    destruct (Hp _ _ Hc) as (itc & Hitc & _).
    destruct (Hp _ _ Hpp) as (itp & Hitp & _).
    rewrite (times_lookup _ _ _ Hc), (times_lookup _ _ _ Hpp).
    unfold deadline. rewrite Hitc, Hitp. simpl.
    apply (Hh k itc itp); [lia | |]; unfold item_at.
    + by rewrite Hc.
    + fold (parent k). by rewrite Hpp.
  - intros Hh k c p Hk Hc Hpp. unfold item_at in *.
    fold (parent k) in Hpp.
    destruct (q_items q !! k) as [lc|] eqn:Elc; [|done].
    destruct (q_items q !! parent k) as [lp|] eqn:Elp; [|done].
    simpl in *.
    pose proof (lookup_lt_Some _ _ _ Elc) as Hlt.
    specialize (Hh k ltac:(lia)).
    rewrite (times_lookup _ _ _ Elc), (times_lookup _ _ _ Elp) in Hh.
    unfold deadline in Hh. by rewrite Hc, Hpp in Hh.
Qed.

(** ** The methods of [queueItems] *)

Ltac mstep E := rewrite (bind_ok _ _ _ _ _ E).

Lemma Len_ok q : queueItems_Len q = (Ok (length (q_items q)), q).
Proof. reflexivity. Qed.

Lemma Less_ok q i j :
  positions_recorded q ->
  i < length (q_items q) -> j < length (q_items q) ->
  queueItems_Less i j q =
  (Ok (Time_Before (times q !!! i) (times q !!! j)), q).
Proof.
  intros Hp Hi Hj.
  destruct (lookup_lt_is_Some_2 _ _ Hi) as [a Ha].
  destruct (lookup_lt_is_Some_2 _ _ Hj) as [b Hb].
  destruct (Hp _ _ Ha) as (ita & Hita & _).
  destruct (Hp _ _ Hb) as (itb & Hitb & _).
  unfold queueItems_Less.
  mstep (index_ok _ _ _ Ha). mstep (deref_ok _ _ _ Hita).
  mstep (index_ok _ _ _ Hb). mstep (deref_ok _ _ _ Hitb).
  rewrite (times_lookup _ _ _ Ha), (times_lookup _ _ _ Hb).
  unfold deadline. by rewrite Hita, Hitb.
Qed.

Lemma Swap_ok q i j a b :
  positions_recorded q ->
  q_items q !! i = Some a -> q_items q !! j = Some b ->
  exists q',
    queueItems_Swap i j q = (Ok tt, q') /\
    q_items q' = <[j:=a]> (<[i:=b]> (q_items q)) /\
    frame q q' /\
    positions_recorded q'.
Proof.
  intros Hp Ha Hb.
  destruct (Hp _ _ Ha) as (ita & Hita & Hia).
  destruct (Hp _ _ Hb) as (itb & Hitb & Hib).
  pose proof (lookup_lt_Some _ _ _ Ha) as Hi.
  pose proof (lookup_lt_Some _ _ _ Hb) as Hj.
  pose proof (lookup_lt_Some _ _ _ Hita) as Hla.
  pose proof (lookup_lt_Some _ _ _ Hitb) as Hlb.
  unfold queueItems_Swap.
  mstep (index_ok _ _ _ Hb). mstep (index_ok _ _ _ Ha).
  mstep (assign_ok _ _ b Hi).
  set (q1 := upd_items _ q).
  assert (j < length (q_items q1)) as Hj1 by (simpl; by rewrite length_insert).
  mstep (assign_ok _ _ a Hj1).
  set (q2 := upd_items _ q1).
  assert (q_items q2 !! j = Some a) as Hj2.
  { simpl. by apply list_lookup_insert_eq. }
  destruct (decide (i = j)) as [->|Hij].
  - assert (a = b) as <- by congruence.
    mstep (index_ok _ _ _ Hj2).
    mstep (set_i_ok q2 a j ita Hita).
    set (q3 := upd_store _ q2).
    assert (q_store q3 !! a = Some (with_i j ita)) as Hita3.
    { simpl. by apply list_lookup_insert_eq. }
    mstep (index_ok q3 _ _ Hj2).
    rewrite (set_i_ok q3 a j _ Hita3).
    eexists. split; [done |]. split; [done |]. split.
    + split; [done |]. split; [done |].
      rewrite (payloads_set_i q3 _ _ _ Hita3).
      apply (payloads_set_i q2 _ _ _ Hita).
    + intros k l. simpl.
      rewrite !(list_insert_id (q_items q) j a Ha). intros Hk.
      destruct (decide (l = a)) as [->|Hla'].
      * rewrite (positions_inj _ _ _ _ Hp Hk Ha).
        eexists. split; [apply list_lookup_insert_eq; by rewrite length_insert | done].
      * rewrite !list_lookup_insert_ne by done. by apply Hp.
  - assert (a <> b) as Hab.
    { intros ->. by apply Hij, (positions_inj q i j b). }
    assert (q_items q2 !! i = Some b) as Hi2.
    { simpl. rewrite list_lookup_insert_ne by done.
      by apply list_lookup_insert_eq. }
    mstep (index_ok _ _ _ Hi2).
    mstep (set_i_ok q2 b i itb Hitb).
    set (q3 := upd_store _ q2).
    assert (q_store q3 !! a = Some ita) as Hita3.
    { simpl. by rewrite list_lookup_insert_ne. }
    mstep (index_ok q3 _ _ Hj2).
    rewrite (set_i_ok q3 a j _ Hita3).
    eexists. split; [done |]. split; [done |]. split.
    + split; [done |]. split; [done |].
      rewrite (payloads_set_i q3 _ _ _ Hita3).
      apply (payloads_set_i q2 _ _ _ Hitb).
    + intros k l. simpl. intros Hk.
      destruct (decide (k = j)) as [->|Hkj].
      { rewrite list_lookup_insert_eq in Hk by (by rewrite length_insert).
        injection Hk as <-.
        eexists. split; [apply list_lookup_insert_eq; by rewrite length_insert | done]. }
      rewrite list_lookup_insert_ne in Hk by done.
      destruct (decide (k = i)) as [->|Hki].
      { rewrite list_lookup_insert_eq in Hk by done. injection Hk as <-.
        rewrite list_lookup_insert_ne by done.
        eexists. split; [by apply list_lookup_insert_eq | done]. }
      rewrite list_lookup_insert_ne in Hk by done.
      assert (l <> a) by (intros ->; by apply Hki, (positions_inj q k i a)).
      assert (l <> b) by (intros ->; by apply Hkj, (positions_inj q k j b)).
      rewrite !list_lookup_insert_ne by done. by apply Hp.
Qed.

Lemma Swap_times q q' i j a b :
  q_items q !! i = Some a -> q_items q !! j = Some b ->
  q_items q' = <[j:=a]> (<[i:=b]> (q_items q)) ->
  payloads q' = payloads q ->
  times q' = exchange (times q) i j.
Proof.
  intros Ha Hb Ei Ep. unfold times at 1. rewrite Ei, !list_fmap_insert.
  assert (deadline q' <$> q_items q = times q) as ->.
  { apply list_fmap_ext. intros. by apply deadline_payloads. }
  unfold exchange.
  by rewrite (times_lookup _ _ _ Ha), (times_lookup _ _ _ Hb),
    !(deadline_payloads _ _ _ Ep).
Qed.

(** ** The loops of [container/heap] *)

Lemma shuffled_refl n q : positions_recorded q -> shuffled n q q.
Proof. intros Hp. by repeat split. Qed.

Lemma shuffled_trans n q1 q2 q3 :
  shuffled n q1 q2 -> shuffled n q2 q3 -> shuffled n q1 q3.
Proof.
  intros (F1 & _ & P1 & L1) (F2 & Hp & P2 & L2).
  split; [by eapply frame_trans |]. split; [done |].
  split; [by etrans |].
  intros k Hk. by rewrite L2, L1.
Qed.

Lemma shuffled_length n q q' :
  shuffled n q q' -> length (q_items q') = length (q_items q).
Proof. intros (_ & _ & P & _). by apply Permutation_length. Qed.

Lemma Swap_step q i j n :
  positions_recorded q ->
  i < n -> j < n -> n <= length (q_items q) ->
  exists q',
    queueItems_Swap i j q = (Ok tt, q') /\
    shuffled n q q' /\
    times q' = exchange (times q) i j /\
    q_items q' !! j = q_items q !! i.
Proof.
  intros Hp Hi Hj Hn.
  destruct (lookup_lt_is_Some_2 (q_items q) i ltac:(lia)) as [a Ha].
  destruct (lookup_lt_is_Some_2 (q_items q) j ltac:(lia)) as [b Hb].
  destruct (Swap_ok q i j a b Hp Ha Hb) as (q' & E & Ei & F & Hp').
  exists q'. split; [done |]. split; [|split].
  - split; [done |]. split; [done |]. split.
    + rewrite Ei. by apply Permutation_insert_swap.
    + intros k Hk. rewrite Ei, !list_lookup_insert_ne by lia. done.
  - eapply Swap_times; [done | done | done | apply F].
  - rewrite Ei, Ha. apply list_lookup_insert_eq.
    rewrite length_insert. lia.
Qed.

Lemma heap_up_loop_S fuel j q :
  heap_up_loop (S fuel) j q =
  (if decide (parent j = j) then ret tt
   else
     let* lt := queueItems_Less j (parent j) in
     if negb lt then ret tt
     else queueItems_Swap (parent j) j ;;; heap_up_loop fuel (parent j)) q.
Proof. reflexivity. Qed.

Lemma heap_down_loop_S fuel i n q :
  heap_down_loop (S fuel) i n q =
  (if decide (n <= 2 * i + 1) then ret i
   else
     let* j :=
       (if decide (2 * i + 1 + 1 < n) then
          let* lt := queueItems_Less (2 * i + 1 + 1) (2 * i + 1) in
          ret (if lt then 2 * i + 1 + 1 else 2 * i + 1)
        else ret (2 * i + 1)) in
     let* lt := queueItems_Less j i in
     if negb lt then ret i
     else queueItems_Swap i j ;;; heap_down_loop fuel j n) q.
Proof. reflexivity. Qed.

(** [up] from [j] on a slice whose only fault below [n] is at [j]. *)
Lemma heap_up_loop_ok fuel : forall j q n,
  positions_recorded q ->
  j < n -> n <= length (q_items q) -> j < fuel ->
  exists q',
    heap_up_loop fuel j q = (Ok tt, q') /\
    shuffled n q q' /\
    (up_hole (times q) n j -> heap_on (times q') n).
Proof.
  induction fuel as [|fuel IH]; intros j q n Hp Hj Hn Hf; [lia |].
  rewrite heap_up_loop_S.
  destruct (decide (parent j = j)) as [Hpj|Hpj].
  { exists q. split; [done |]. split; [by apply shuffled_refl |].
    intros Hh. apply (up_hole_done _ _ j); auto. }
  assert (0 < j) as Hj0 by (destruct j; [done | lia]).
  pose proof (parent_lt j Hj0) as Hlt.
  mstep (Less_ok q j (parent j) Hp ltac:(lia) ltac:(lia)).
  unfold Time_Before.
  destruct (Z.ltb_spec (times q !!! j) (times q !!! parent j)) as [Hc|Hc]; simpl.
  - destruct (Swap_step q (parent j) j n Hp ltac:(lia) Hj Hn)
      as (q1 & E1 & S1 & T1 & _).
    mstep E1.
    destruct (IH (parent j) q1 n) as (q' & E' & S' & Hh'); [apply S1 | lia | | lia |].
    { by rewrite (shuffled_length _ _ _ S1). }
    exists q'. split; [done |]. split; [by eapply shuffled_trans |].
    intros Hh. apply Hh'. rewrite T1.
    apply up_hole_step; try done. by rewrite times_length.
  - exists q. split; [done |]. split; [by apply shuffled_refl |].
    intros Hh. apply (up_hole_done _ _ j); auto.
Qed.

(** [down] from [i] on a slice whose only fault below [n] is at [i].  When
    the loop ends where it began nothing has been touched and [i] is no
    later than its children; the heap is in order as soon as [i] has moved
    or is in order with its parent. *)
Lemma heap_down_loop_ok fuel : forall i q n,
  positions_recorded q ->
  n <= length (q_items q) -> n - i <= fuel ->
  exists i' q',
    heap_down_loop fuel i n q = (Ok i', q') /\
    i <= i' /\
    shuffled n q q' /\
    (i' = i ->
       q' = q /\
       forall k, 0 < k < n -> parent k = i ->
                 (times q !!! i <= times q !!! k)%Z) /\
    (down_hole (times q) n i ->
     (i' = i -> 0 < i -> (times q !!! parent i <= times q !!! i)%Z) ->
     heap_on (times q') n).
Proof.
  induction fuel as [|fuel IH]; intros i q n Hp Hn Hf.
  { exists i, q. split; [done |]. split; [done |].
    split; [by apply shuffled_refl |]. split.
    - intros _. split; [done |]. intros k Hk Hpk.
      pose proof (parent_lt k ltac:(lia)). lia.
    - intros Hh Hup. apply (down_hole_done _ _ i); auto.
      intros k Hk Hpk. pose proof (parent_lt k ltac:(lia)). lia. }
  rewrite heap_down_loop_S.
  destruct (decide (n <= 2 * i + 1)) as [Hj1|Hj1].
  { exists i, q. split; [done |]. split; [done |].
    split; [by apply shuffled_refl |].
    assert (forall k, 0 < k < n -> parent k = i -> False) as Hno.
    { intros k Hk Hpk. apply parent_children in Hpk; lia. }
    split.
    - intros _. split; [done |]. intros k Hk Hpk. by destruct (Hno k).
    - intros Hh Hup. apply (down_hole_done _ _ i); auto.
      intros k Hk Hpk. by destruct (Hno k). }
  (* the earliest child *)
  assert (exists j,
    (if decide (2 * i + 1 + 1 < n) then
       let* lt := queueItems_Less (2 * i + 1 + 1) (2 * i + 1) in
       ret (if lt then 2 * i + 1 + 1 else 2 * i + 1)
     else ret (2 * i + 1)) q = (Ok j, q) /\
    j < n /\ 0 < j /\ parent j = i /\
    forall k, 0 < k < n -> parent k = i ->
              (times q !!! j <= times q !!! k)%Z) as (j & Ej & Hj & Hj0 & Hpj & Hmin).
  { destruct (decide (2 * i + 1 + 1 < n)) as [Hj2|Hj2].
    - mstep (Less_ok q (2 * i + 1 + 1) (2 * i + 1) Hp ltac:(lia) ltac:(lia)).
      unfold Time_Before.
      destruct (Z.ltb_spec (times q !!! (2 * i + 1 + 1)) (times q !!! (2 * i + 1)))
        as [Hc|Hc].
      + exists (2 * i + 1 + 1). split; [done |]. split; [lia |].
        split; [lia |]. split; [apply parent_children; lia |].
        intros k Hk Hpk. apply parent_children in Hpk; [|lia].
        destruct Hpk as [->| ->]; [lia |].
        replace (2 * i + 2) with (2 * i + 1 + 1) by lia. lia.
      + exists (2 * i + 1). split; [done |]. split; [lia |].
        split; [lia |]. split; [apply parent_children; lia |].
        intros k Hk Hpk. apply parent_children in Hpk; [|lia].
        destruct Hpk as [->| ->]; [lia |].
        replace (2 * i + 2) with (2 * i + 1 + 1) by lia. lia.
    - exists (2 * i + 1). split; [done |]. split; [lia |].
      split; [lia |]. split; [apply parent_children; lia |].
      intros k Hk Hpk. apply parent_children in Hpk; [|lia].
      destruct Hpk as [->| ->]; lia. }
  mstep Ej.
  pose proof (parent_lt j Hj0) as Hij. rewrite Hpj in Hij.
  mstep (Less_ok q j i Hp ltac:(lia) ltac:(lia)).
  unfold Time_Before.
  destruct (Z.ltb_spec (times q !!! j) (times q !!! i)) as [Hc|Hc]; simpl.
  - destruct (Swap_step q i j n Hp ltac:(lia) Hj Hn) as (q1 & E1 & S1 & T1 & _).
    mstep E1.
    assert (j = 2 * i + 1 \/ j = 2 * i + 2) as Hjc by (by apply parent_children).
    destruct (IH j q1 n) as (i' & q' & E' & Hi' & S' & _ & Hh');
      [apply S1 | by rewrite (shuffled_length _ _ _ S1) | lia |].
    exists i', q'. split; [done |]. split; [lia |].
    split; [by eapply shuffled_trans |]. split; [lia |].
    intros Hh _.
    destruct (down_hole_step (times q) n i j) as (Hh1 & Hjp & _);
      try done; [by rewrite times_length |].
    apply Hh'; rewrite T1; [done |]. intros _ _. done.
  - exists i, q. split; [done |]. split; [done |].
    split; [by apply shuffled_refl |].
    assert (forall k, 0 < k < n -> parent k = i ->
                      (times q !!! i <= times q !!! k)%Z) as Hch.
    { intros k Hk Hpk. specialize (Hmin k Hk Hpk). lia. }
    split; [done |].
    intros Hh Hup. apply (down_hole_done _ _ i); auto.
Qed.

Lemma heap_up_ok q j n :
  positions_recorded q -> j < n -> n <= length (q_items q) ->
  exists q',
    heap_up j q = (Ok tt, q') /\
    shuffled n q q' /\
    (up_hole (times q) n j -> heap_on (times q') n).
Proof. intros Hp Hj Hn. apply heap_up_loop_ok; auto. Qed.

Lemma heap_down_ok q i n :
  positions_recorded q -> n <= length (q_items q) ->
  exists moved q',
    heap_down i n q = (Ok moved, q') /\
    shuffled n q q' /\
    (moved = false ->
       q' = q /\
       forall k, 0 < k < n -> parent k = i ->
                 (times q !!! i <= times q !!! k)%Z) /\
    (down_hole (times q) n i ->
     (moved = false -> 0 < i -> (times q !!! parent i <= times q !!! i)%Z) ->
     heap_on (times q') n).
Proof.
  intros Hp Hn.
  destruct (heap_down_loop_ok n i q n Hp Hn ltac:(lia))
    as (i' & q' & E & Hi & S & Hsame & Hh).
  exists (bool_decide (i < i')), q'. unfold heap_down. mstep E.
  split; [done |]. split; [done |]. split.
  - intros Hm. apply bool_decide_eq_false in Hm. apply Hsame. lia.
  - intros Hd Hup. apply Hh; [done |].
    intros -> Hi0. apply Hup; [|done].
    apply bool_decide_eq_false. lia.
Qed.

(** The fuel of the two loops is enough: more of it changes nothing. *)
Lemma bind_ext {A B} (c : M A) (f g : A -> M B) q :
  (forall a q', c q = (Ok a, q') -> f a q' = g a q') ->
  bind c f q = bind c g q.
Proof.
  intros Hfg. unfold bind.
  destruct (c q) as [[a|p] q']; [by apply Hfg | done].
Qed.

Lemma heap_up_loop_fuel f1 : forall f2 j q,
  j < f1 -> j < f2 -> heap_up_loop f1 j q = heap_up_loop f2 j q.
Proof.
  induction f1 as [|f1 IH]; intros [|f2] j q H1 H2; try lia.
  rewrite !heap_up_loop_S.
  destruct (decide (parent j = j)) as [Hpj|Hpj]; [done |].
  assert (0 < j) as Hj0 by (destruct j; [done | lia]).
  pose proof (parent_lt j Hj0).
  apply bind_ext. intros lt q1 _.
  destruct (negb lt); [done |].
  apply bind_ext. intros _ q2 _.
  apply IH; lia.
Qed.

Lemma heap_down_loop_break fuel i n q :
  n <= 2 * i + 1 -> heap_down_loop fuel i n q = (Ok i, q).
Proof.
  intros Hn. destruct fuel as [|fuel]; [done |].
  rewrite heap_down_loop_S. by rewrite decide_True.
Qed.

Lemma heap_down_loop_fuel f1 : forall f2 i n q,
  n - i <= f1 -> n - i <= f2 ->
  heap_down_loop f1 i n q = heap_down_loop f2 i n q.
Proof.
  induction f1 as [|f1 IH]; intros f2 i n q H1 H2.
  { rewrite !heap_down_loop_break by lia. done. }
  destruct f2 as [|f2].
  { rewrite !heap_down_loop_break by lia. done. }
  rewrite !heap_down_loop_S.
  destruct (decide (n <= 2 * i + 1)) as [Hn|Hn]; [done |].
  apply bind_ext. intros j q1 Ej.
  assert (2 * i + 1 <= j) as Hj.
  { destruct (decide (2 * i + 1 + 1 < n)).
    - unfold bind, ret in Ej.
      destruct (queueItems_Less _ _ q) as [[[|]|p] q0]; simplify_eq; lia.
    - unfold ret in Ej. simplify_eq. lia. }
  apply bind_ext. intros lt q2 _.
  destruct (negb lt); [done |].
  apply bind_ext. intros _ q3 _.
  apply IH; lia.
Qed.

(** ** [Push], [Pop] and [Remove] of [container/heap] *)

Lemma queueItems_Pop_ok q n x :
  positions_recorded q ->
  length (q_items q) = S n -> q_items q !! n = Some x ->
  exists q',
    queueItems_Pop q = (Ok x, q') /\
    frame q q' /\ positions_recorded q' /\
    q_items q ≡ₚ x :: q_items q' /\
    length (q_items q') = n /\
    (heap_on (times q) n -> heap_on (times q') n).
Proof.
  intros Hp Hlen Hx.
  exists (upd_items (take n (q_items q)) q).
  split; [|split; [|split; [|split; [|split]]]].
  - unfold queueItems_Pop. mstep (Len_ok q). rewrite Hlen.
    replace (S n - 1) with n by lia.
    by mstep (index_ok _ _ _ Hx).
  - done.
  - intros k l. simpl. rewrite lookup_take_Some. intros [Hk _]. by apply Hp.
  - simpl. rewrite <- (firstn_all (q_items q)) at 1.
    rewrite Hlen, (take_S_r _ _ _ Hx). symmetry. apply Permutation_cons_append.
  - simpl. rewrite length_take. lia.
  - apply heap_on_ext. intros k Hk. unfold times. simpl.
    rewrite fmap_take. by apply lookup_total_take_lt.
Qed.

Lemma heap_Push_ok q x itx :
  positions_recorded q ->
  heap_on (times q) (length (q_items q)) ->
  q_store q !! x = Some itx -> x ∉ q_items q ->
  exists q',
    heap_Push x q = (Ok tt, q') /\
    frame q q' /\ positions_recorded q' /\
    heap_on (times q') (length (q_items q')) /\
    q_items q' ≡ₚ x :: q_items q.
Proof.
  intros Hp Hh Hx Hnx.
  set (n := length (q_items q)).
  set (q0 := upd_store (<[x := with_i n itx]> (q_store q)) q).
  set (q1 := upd_items (q_items q ++ [x]) q0).
  assert (queueItems_Push x q = (Ok tt, q1)) as E1.
  { unfold queueItems_Push. mstep (Len_ok q). by mstep (set_i_ok q x n itx Hx). }
  assert (frame q q1) as F1.
  { split; [done |]. split; [done |]. apply (payloads_set_i q _ _ _ Hx). }
  assert (positions_recorded q1) as Hp1.
  { intros k l. simpl. rewrite lookup_snoc_Some.
    pose proof (lookup_lt_Some _ _ _ Hx).
    intros [[Hk Hl]|[-> <-]].
    - assert (l <> x) by (intros ->; apply Hnx; by eapply list_elem_of_lookup_2).
      rewrite list_lookup_insert_ne by done. by apply Hp.
    - eexists. split; [by apply list_lookup_insert_eq | done]. }
  assert (times q1 = times q ++ [deadline q x]) as T1.
  { unfold times at 1. simpl. rewrite fmap_app. simpl.
    rewrite (deadline_payloads q q1 x) by apply F1.
    f_equal. apply list_fmap_ext. intros. apply deadline_payloads, F1. }
  assert (length (q_items q1) = S n) as L1.
  { simpl. rewrite length_app. simpl. lia. }
  destruct (heap_up_ok q1 n (S n) Hp1 ltac:(lia) ltac:(lia))
    as (q' & E' & S' & Hh').
  exists q'. split.
  { unfold heap_Push. mstep E1. mstep (Len_ok q1). rewrite L1.
    by replace (S n - 1) with n by lia. }
  destruct S' as (F' & Hp' & P' & _).
  split; [by eapply frame_trans |]. split; [done |]. split.
  - rewrite (Permutation_length P'), L1. apply Hh'. split.
    + intros k Hk Hkn. pose proof (parent_lt k ltac:(lia)).
      rewrite T1, !lookup_total_app_l by (rewrite times_length; lia).
      apply Hh. lia.
    + intros k Hk Hpk. pose proof (parent_lt k ltac:(lia)). lia.
  - rewrite P'. simpl. symmetry. apply Permutation_cons_append.
Qed.

Lemma heap_Remove_ok q i x :
  positions_recorded q ->
  heap_on (times q) (length (q_items q)) ->
  q_items q !! i = Some x ->
  exists q',
    heap_Remove i q = (Ok x, q') /\
    frame q q' /\ positions_recorded q' /\
    heap_on (times q') (length (q_items q')) /\
    q_items q ≡ₚ x :: q_items q'.
Proof.
  intros Hp Hh Hx.
  pose proof (lookup_lt_Some _ _ _ Hx) as Hi.
  destruct (length (q_items q)) as [|n] eqn:Hlen; [lia |].
  assert (exists qf,
    (if decide (n <> i) then
       queueItems_Swap i n ;;;
       let* moved := heap_down i n in
       if negb moved then heap_up i else ret tt
     else ret tt) q = (Ok tt, qf) /\
    frame q qf /\ positions_recorded qf /\ q_items qf ≡ₚ q_items q /\
    q_items qf !! n = Some x /\
    heap_on (times qf) n) as (qf & Ef & Ff & Hpf & Pf & Hxf & Hhf).
  { destruct (decide (n <> i)) as [Hni|Hni].
    - destruct (Swap_step q i n (S n) Hp ltac:(lia) ltac:(lia) ltac:(lia))
        as (q1 & E1 & S1 & T1 & L1).
      mstep E1. rewrite Hx in L1.
      pose proof (shuffled_length _ _ _ S1) as Hlen1. rewrite Hlen in Hlen1.
      destruct S1 as (F1 & Hp1 & P1 & _).
      assert (down_hole (times q1) n i) as Hd1.
      { rewrite T1. apply down_hole_exchange_last; [done | lia |].
        rewrite times_length. lia. }
      destruct (heap_down_ok q1 i n Hp1 ltac:(lia))
        as (moved & q2 & E2 & S2 & Hsame & Hh2).
      mstep E2. destruct moved; simpl.
      + exists q2. split; [done |].
        destruct S2 as (F2 & Hp2 & P2 & L2).
        split; [by eapply frame_trans |]. split; [done |].
        split; [by etrans |]. split; [by rewrite L2 |].
        apply Hh2; [done | done].
      + destruct (Hsame eq_refl) as [-> Hch].
        destruct (heap_up_ok q1 i n Hp1 ltac:(lia) ltac:(lia))
          as (q3 & E3 & S3 & Hh3).
        exists q3. split; [done |].
        destruct S3 as (F3 & Hp3 & P3 & L3).
        split; [by eapply frame_trans |]. split; [done |].
        split; [by etrans |]. split; [by rewrite L3 |].
        apply Hh3. by apply down_hole_up_hole.
    - assert (i = n) as -> by lia.
      exists q. split; [done |]. split; [done |]. split; [done |].
      split; [done |]. split; [done |].
      eapply heap_on_mono; [|done]. lia. }
  assert (length (q_items qf) = S n) as Hlenf.
  { by rewrite (Permutation_length Pf). }
  destruct (queueItems_Pop_ok qf n x Hpf Hlenf Hxf)
    as (q' & E' & F' & Hp' & P' & L' & Hh').
  exists q'. split.
  { unfold heap_Remove. mstep (Len_ok q). rewrite Hlen.
    replace (S n - 1) with n by lia. by mstep Ef. }
  split; [by eapply frame_trans |]. split; [done |].
  split; [rewrite L'; by apply Hh' |].
  by rewrite <- Pf.
Qed.

Lemma heap_Pop_ok q r :
  positions_recorded q ->
  heap_on (times q) (length (q_items q)) ->
  q_items q !! 0 = Some r ->
  exists q',
    heap_Pop q = (Ok r, q') /\
    frame q q' /\ positions_recorded q' /\
    heap_on (times q') (length (q_items q')) /\
    q_items q ≡ₚ r :: q_items q'.
Proof.
  intros Hp Hh Hr.
  pose proof (lookup_lt_Some _ _ _ Hr) as Hi.
  destruct (length (q_items q)) as [|n] eqn:Hlen; [lia |].
  destruct (Swap_step q 0 n (S n) Hp ltac:(lia) ltac:(lia) ltac:(lia))
    as (q1 & E1 & S1 & T1 & L1).
  rewrite Hr in L1.
  pose proof (shuffled_length _ _ _ S1) as Hlen1. rewrite Hlen in Hlen1.
  destruct S1 as (F1 & Hp1 & P1 & _).
  destruct (heap_down_ok q1 0 n Hp1 ltac:(lia))
    as (moved & q2 & E2 & S2 & _ & Hh2).
  destruct S2 as (F2 & Hp2 & P2 & L2).
  assert (length (q_items q2) = S n) as Hlen2.
  { by rewrite (Permutation_length P2). }
  assert (q_items q2 !! n = Some r) as Hr2 by by rewrite L2.
  destruct (queueItems_Pop_ok q2 n r Hp2 Hlen2 Hr2)
    as (q' & E' & F' & Hp' & P' & L' & Hh').
  exists q'. split.
  { unfold heap_Pop. mstep (Len_ok q). rewrite Hlen.
    replace (S n - 1) with n by lia. mstep E1. by mstep E2. }
  split; [eapply frame_trans; [|done]; by eapply frame_trans |].
  split; [done |]. split.
  - rewrite L'. apply Hh', Hh2; [|lia].
    rewrite T1. apply down_hole_exchange_last; [done | lia |].
    rewrite times_length. lia.
  - by rewrite <- P', P2, P1.
Qed.

(** ** The methods of [Queue] keep the queue well formed *)

Lemma Queue_New_wf clock : wf (Queue_New clock : @Queue K _ _ V Chan).
Proof.
  split; [|split].
  - intros k l Hk. simpl in Hk. by rewrite lookup_nil in Hk.
  - intros key l. simpl. rewrite lookup_empty.
    split; [done |]. intros [Hl _]. by apply not_elem_of_nil in Hl.
  - intros k c p _ Hc. unfold item_at in Hc.
    by destruct k.
Qed.

Lemma wf_heap_on q : wf q -> heap_on (times q) (length (q_items q)).
Proof. intros (Hp & _ & Hh). by apply heap_ordered_times. Qed.

(** The root is the earliest item. *)
Lemma wf_root_min q r l :
  wf q -> q_items q !! 0 = Some r -> l ∈ q_items q ->
  (deadline q r <= deadline q l)%Z.
Proof.
  intros Hwf Hr Hl. apply list_elem_of_lookup in Hl as [k Hk].
  pose proof (heap_on_root _ _ (wf_heap_on _ Hwf) k (lookup_lt_Some _ _ _ Hk)) as Hle.
  by rewrite (times_lookup _ _ _ Hr), (times_lookup _ _ _ Hk) in Hle.
Qed.

(** An item has left the slice and its key leaves the index. *)
Lemma unlink_wf q q1 l key :
  wf q -> frame q q1 -> positions_recorded q1 ->
  heap_on (times q1) (length (q_items q1)) ->
  q_items q ≡ₚ l :: q_items q1 ->
  item_key <$> q_store q !! l = Some key ->
  wf (upd_m (delete key (q_m q1)) q1).
Proof.
  intros (Hp & Hm & _) (Ft & Fm & Fp) Hp1 Hh1 P Hkey.
  assert (NoDup (l :: q_items q1)) as Hnd.
  { rewrite <- P. by apply positions_NoDup. }
  apply NoDup_cons in Hnd as [Hl1 _].
  split; [done |]. split; [|by apply heap_ordered_times].
  intros key' l'. simpl. rewrite Fm, (key_payloads _ _ _ Fp).
  rewrite lookup_delete_Some, (Hm key' l'). split.
  - intros (Hne & Hin & Hk'). split; [|done].
    rewrite P in Hin. apply elem_of_cons in Hin as [->|Hin]; [congruence | done].
  - intros (Hin & Hk').
    assert (l' ∈ q_items q) as Hin' by (rewrite P; by apply elem_of_cons; right).
    split; [|done]. intros <-.
    assert (q_m q !! key = Some l) as E1.
    { apply Hm. split; [|done]. rewrite P. by apply elem_of_cons; left. }
    assert (q_m q !! key = Some l') as E2 by (by apply Hm).
    congruence.
Qed.

Lemma Queue_Add_ok q key value t :
  wf q -> q_m q !! key = None ->
  exists q',
    Queue_Add key value t q = (Ok tt, q') /\
    wf q' /\
    q_time q' = q_time q /\
    q_m q' = <[key := length (q_store q)]> (q_m q) /\
    q_items q' ≡ₚ length (q_store q) :: q_items q /\
    payloads q' = payloads q ++ [(key, value, t)].
Proof.
  intros Hwf Hnone. pose proof Hwf as (Hp & Hm & _).
  set (x := length (q_store q)).
  set (it := {| item_i := 0; item_key := key; item_value := value; item_t := t |}).
  set (q0 := upd_store (q_store q ++ [it]) q).
  set (q1 := upd_m (<[key := x]> (q_m q)) q0).
  assert (positions_recorded q1) as Hp1.
  { intros k l Hk. simpl in *. destruct (Hp k l Hk) as (it' & Hit' & Hi').
    exists it'. split; [|done]. rewrite lookup_app_l; [done |].
    by eapply lookup_lt_Some. }
  assert (times q1 = times q) as T1.
  { unfold times. simpl. apply list_fmap_ext. intros k l Hk.
    unfold deadline. simpl. rewrite lookup_app_l; [done |].
    by eapply positions_lt. }
  assert (x ∉ q_items q) as Hx.
  { intros Hin. apply list_elem_of_lookup in Hin as [k Hk].
    pose proof (positions_lt _ _ _ Hp Hk). unfold x in *. lia. }
  assert (q_store q1 !! x = Some it) as Hit.
  { simpl. rewrite lookup_app_r by done.
    by replace (x - length (q_store q)) with 0 by (unfold x; lia). }
  destruct (heap_Push_ok q1 x it Hp1) as (q' & E' & (Ft & Fm & Fp) & Hp' & Hh' & P');
    [rewrite T1; exact (wf_heap_on q Hwf) | done | done |].
  assert (payloads q1 = payloads q ++ [(key, value, t)]) as Hpay.
  { unfold payloads. simpl. by rewrite fmap_app. }
  exists q'. split; [|split; [|split; [|split; [|split]]]]; try done.
  - unfold Queue_Add. unfold bind at 1. unfold get_m at 1. rewrite Hnone.
    assert (alloc it q = (Ok x, q0)) as E0 by done.
    mstep E0. unfold bind at 1. unfold get_m at 1. unfold bind, set_m.
    done.
  - split; [done |]. split; [|by apply heap_ordered_times].
    intros key' l'. rewrite Fm, (key_payloads _ _ _ Fp), P'.
    change (q_items q1) with (q_items q).
    change (q_m q1) with (<[key:=x]> (q_m q)).
    assert (forall l, l ∈ q_items q ->
              item_key <$> q_store q1 !! l = item_key <$> q_store q !! l) as Hold.
    { intros l Hin. apply list_elem_of_lookup in Hin as [k Hk'].
      change (q_store q1) with (q_store q ++ [it]).
      rewrite lookup_app_l; [done |]. by eapply positions_lt. }
    rewrite elem_of_cons. split.
    + intros Hlk. apply lookup_insert_Some in Hlk as [[<- <-]|[Hne Hlk]].
      * split; [by left |]. by rewrite Hit.
      * apply Hm in Hlk as [Hin Hk]. split; [by right |].
        by rewrite Hold.
    + intros [[->|Hin] Hk].
      * rewrite Hit in Hk. simpl in Hk. injection Hk as <-.
        by apply lookup_insert_eq.
      * rewrite Hold in Hk by done.
        assert (q_m q !! key' = Some l') as E by (by apply Hm).
        rewrite lookup_insert_ne; [done |]. congruence.
  - by rewrite Fp.
Qed.

Lemma Queue_Add_duplicate q key value t l :
  q_m q !! key = Some l ->
  Queue_Add key value t q = (Panic (DuplicateKey key), q).
Proof.
  intros E. unfold Queue_Add, bind, get_m. by rewrite E.
Qed.

Lemma Queue_Remove_absent q key :
  q_m q !! key = None -> Queue_Remove key q = (Ok tt, q).
Proof.
  intros E. unfold Queue_Remove, bind, get_m. by rewrite E.
Qed.

Lemma Queue_Remove_ok q key l :
  wf q -> q_m q !! key = Some l ->
  exists q',
    Queue_Remove key q = (Ok tt, q') /\
    wf q' /\
    q_time q' = q_time q /\
    q_m q' = delete key (q_m q) /\
    q_items q ≡ₚ l :: q_items q' /\
    payloads q' = payloads q.
Proof.
  intros Hwf Hsome. pose proof Hwf as (Hp & Hm & _).
  apply Hm in Hsome as Hl. destruct Hl as [Hin Hkey].
  apply list_elem_of_lookup in Hin as [k Hk].
  destruct (Hp k l Hk) as (it & Hit & Hi).
  destruct (heap_Remove_ok q k l Hp (wf_heap_on _ Hwf) Hk)
    as (q1 & E1 & F1 & Hp1 & Hh1 & P1).
  exists (upd_m (delete key (q_m q1)) q1).
  split; [|split; [|split; [|split; [|split]]]].
  - unfold Queue_Remove. unfold bind at 1. unfold get_m at 1. rewrite Hsome.
    mstep (deref_ok _ _ _ Hit). rewrite Hi. by mstep E1.
  - by eapply unlink_wf.
  - apply F1.
  - simpl. f_equal. apply F1.
  - done.
  - apply F1.
Qed.

(** ** [Ready] *)

Lemma Ready_loop_S fuel now ready q :
  Ready_loop (S fuel) now ready q =
  (let* len := queueItems_Len in
   if decide (0 < len) then
     let* r := index 0 in
     let* it := deref r in
     if negb (Time_After (item_t it) now) then
       let* x := heap_Pop in
       let* item := deref x in
       let* mp := get_m in
       set_m (delete (item_key item) mp) ;;;
       Ready_loop fuel now (ready ++ [item_value item])
     else ret ready
   else ret ready) q.
Proof. reflexivity. Qed.

Lemma payloads_lookup_Some q q' l it :
  payloads q' = payloads q -> q_store q !! l = Some it ->
  exists it', q_store q' !! l = Some it' /\ payload it' = payload it.
Proof.
  intros E Hit. apply (payloads_lookup _ _ l) in E. rewrite Hit in E.
  destruct (q_store q' !! l) as [it'|]; [|done].
  exists it'. split; [done |]. simpl in E. congruence.
Qed.

Lemma Ready_loop_ok (d : loc -> Z) (vl : loc -> option V) now fuel :
  forall q ready,
  wf q ->
  (forall l, deadline q l = d l) ->
  (forall l, item_value <$> q_store q !! l = vl l) ->
  length (q_items q) < fuel ->
  exists ps vs q',
    Ready_loop fuel now ready q = (Ok (ready ++ vs), q') /\
    wf q' /\ q_time q' = q_time q /\ payloads q' = payloads q /\
    q_items q ≡ₚ ps ++ q_items q' /\
    Forall2 (fun l v => vl l = Some v) ps vs /\
    StronglySorted (fun a b => (d a <= d b)%Z) ps /\
    Forall (fun l => (d l <= now)%Z) ps /\
    Forall (fun l => (now < d l)%Z) (q_items q').
Proof.
  induction fuel as [|fuel IH]; intros q ready Hwf Hd Hv Hf; [lia |].
  pose proof Hwf as (Hp & Hm & _).
  rewrite Ready_loop_S. mstep (Len_ok q).
  destruct (decide (0 < length (q_items q))) as [Hlen|Hlen].
  2:{ exists [], [], q. rewrite app_nil_r.
      do 5 (split; [done |]). do 3 (split; [constructor |]).
      destruct (q_items q); [constructor | simpl in Hlen; lia]. }
  destruct (lookup_lt_is_Some_2 _ _ Hlen) as [r Hr].
  destruct (Hp _ _ Hr) as (it & Hit & _).
  mstep (index_ok _ _ _ Hr). mstep (deref_ok _ _ _ Hit).
  assert (d r = item_t it) as Hdr.
  { rewrite <- Hd. unfold deadline. by rewrite Hit. }
  unfold Time_After.
  destruct (Z.ltb_spec now (item_t it)) as [Hlate|Hdue]; simpl.
  { exists [], [], q. rewrite app_nil_r.
    do 5 (split; [done |]). do 3 (split; [constructor |]).
    apply Forall_forall. intros l Hl.
    pose proof (wf_root_min q r l Hwf Hr Hl) as Hle.
    rewrite !Hd in Hle. lia. }
  destruct (heap_Pop_ok q r Hp (wf_heap_on _ Hwf) Hr)
    as (q1 & E1 & F1 & Hp1 & Hh1 & P1).
  mstep E1.
  destruct (payloads_lookup_Some q q1 r it) as (it1 & Hit1 & Hpay1);
    [apply F1 | done |].
  mstep (deref_ok _ _ _ Hit1).
  assert (item_key it1 = item_key it /\ item_value it1 = item_value it)
    as [Hk1 Hv1] by (unfold payload in Hpay1; split; congruence).
  set (q2 := upd_m (delete (item_key it1) (q_m q1)) q1).
  assert (get_m q1 = (Ok (q_m q1), q1)) as Eg by done.
  mstep Eg.
  assert (set_m (delete (item_key it1) (q_m q1)) q1 = (Ok tt, q2)) as Es by done.
  mstep Es.
  assert (wf q2) as Hwf2.
  { eapply unlink_wf; try done. by rewrite Hit, Hk1. }
  assert (payloads q2 = payloads q) as Hpay2 by apply F1.
  destruct (IH q2 (ready ++ [item_value it1]) Hwf2) as
    (ps & vs & q' & E' & Hwf' & Ht' & Hp' & P' & Hvs & Hss & Hle & Hgt).
  { intros l. by rewrite (deadline_payloads _ _ _ Hpay2). }
  { intros l. by rewrite (value_payloads _ _ _ Hpay2). }
  { apply Permutation_length in P1. simpl in *. lia. }
  exists (r :: ps), (item_value it1 :: vs), q'.
  split; [by rewrite E', <- app_assoc |].
  split; [done |]. split; [rewrite Ht'; apply F1 |].
  split; [congruence |].
  split; [rewrite P1; simpl; by rewrite <- P' |].
  split; [constructor; [by rewrite <- Hv, Hit, Hv1 | done] |].
  split; [|split; [constructor; [lia | done] | done]].
  constructor; [done |].
  apply Forall_forall. intros l Hl.
  assert (l ∈ q_items q) as Hin.
  { rewrite P1. apply elem_of_cons; right.
    change (q_items q1) with (q_items q2). rewrite P'.
    apply elem_of_app; by left. }
  pose proof (wf_root_min q r l Hwf Hr Hin) as Hmin.
  by rewrite !Hd in Hmin.
Qed.

Lemma Queue_Ready_ok q now :
  wf q ->
  exists ps vs q',
    Queue_Ready now q = (Ok vs, q') /\
    wf q' /\ q_time q' = q_time q /\ payloads q' = payloads q /\
    q_items q ≡ₚ ps ++ q_items q' /\
    Forall2 (fun l v => item_value <$> q_store q !! l = Some v) ps vs /\
    StronglySorted (fun a b => (deadline q a <= deadline q b)%Z) ps /\
    Forall (fun l => (deadline q l <= now)%Z) ps /\
    Forall (fun l => (now < deadline q l)%Z) (q_items q').
Proof.
  intros Hwf.
  destruct (Ready_loop_ok (deadline q) (fun l => item_value <$> q_store q !! l)
              now (S (length (q_items q))) q [] Hwf)
    as (ps & vs & q' & E & H'); [done | done | lia |].
  exists ps, vs, q'. split; [|done].
  unfold Queue_Ready. by mstep (Len_ok q).
Qed.

(** ** Runs of calls *)

Lemma Queue_Next_ok q :
  wf q ->
  Queue_Next q =
  (Ok (match q_items q !! 0 with
       | Some r =>
           Some (After (q_time q) (Time_Sub (deadline q r) (Now (q_time q))))
       | None => None
       end), q).
Proof.
  intros (Hp & _). unfold Queue_Next. mstep (Len_ok q).
  destruct (decide (0 < length (q_items q))) as [Hlen|Hlen].
  - destruct (lookup_lt_is_Some_2 _ _ Hlen) as [r Hr].
    destruct (Hp _ _ Hr) as (it & Hit & _).
    mstep (index_ok _ _ _ Hr). mstep (deref_ok _ _ _ Hit).
    rewrite Hr. unfold deadline. by rewrite Hit.
  - by destruct (q_items q); [|simpl in Hlen; lia].
Qed.

Lemma do_call_wf (c : call) q : wf q -> wf (do_call c q).
Proof.
  intros Hwf. destruct c as [key value t|key|now|]; simpl.
  - destruct (q_m q !! key) as [l|] eqn:E.
    + by rewrite (Queue_Add_duplicate _ _ _ _ _ E).
    + destruct (Queue_Add_ok q key value t Hwf E) as (q' & -> & Hwf' & _).
      done.
  - destruct (q_m q !! key) as [l|] eqn:E.
    + destruct (Queue_Remove_ok q key l Hwf E) as (q' & -> & Hwf' & _).
      done.
    + by rewrite (Queue_Remove_absent _ _ E).
  - destruct (Queue_Ready_ok q now Hwf) as (ps & vs & q' & -> & Hwf' & _).
    done.
  - by rewrite (Queue_Next_ok _ Hwf).
Qed.

Lemma do_calls_wf cs : forall q, wf q -> wf (do_calls cs q).
Proof.
  induction cs as [|c cs IH]; intros q Hwf; [done |].
  simpl. by apply IH, do_call_wf.
Qed.

Lemma filter_Forall_id {A} (P : A -> Prop) `{!forall x, Decision (P x)} l :
  Forall P l -> filter P l = l.
Proof.
  induction 1 as [|x l Hx _ IH]; [done |].
  by rewrite filter_cons_True, IH.
Qed.

Lemma filter_Forall_nil {A} (P : A -> Prop) `{!forall x, Decision (P x)} l :
  Forall (fun x => ~ P x) l -> filter P l = [].
Proof.
  induction 1 as [|x l Hx _ IH]; [done |].
  by rewrite filter_cons_False.
Qed.

(** * The claims *)

(** C3.  On a well-formed queue [Ready now] returns the values of exactly
    the items whose deadline is at or before [now], ordered by deadline
    (non-decreasing); these items leave the slice and their keys leave the
    key index; the items with a later deadline stay, with their key, value
    and deadline, and the queue stays well formed. *)
Theorem Queue_Ready_spec q now :
  wf q ->
  exists ps vs q',
    Queue_Ready now q = (Ok vs, q') /\
    Forall2 (fun l v => item_value <$> q_store q !! l = Some v) ps vs /\
    ps ≡ₚ filter (fun l => (deadline q l <= now)%Z) (q_items q) /\
    StronglySorted (fun a b => (deadline q a <= deadline q b)%Z) ps /\
    q_items q' ≡ₚ filter (fun l => (now < deadline q l)%Z) (q_items q) /\
    (forall key l, q_m q' !! key = Some l <->
                   q_m q !! key = Some l /\ (now < deadline q l)%Z) /\
    payloads q' = payloads q /\
    wf q'.
Proof.
  intros Hwf.
  destruct (Queue_Ready_ok q now Hwf)
    as (ps & vs & q' & E & Hwf' & _ & Hpay & P & Hvs & Hss & Hle & Hgt).
  assert (q_items q' ≡ₚ filter (fun l => (now < deadline q l)%Z) (q_items q))
    as Prest.
  { rewrite P, filter_app, filter_Forall_nil, filter_Forall_id; [done | done |].
    eapply Forall_impl; [exact Hle |]. simpl. lia. }
  exists ps, vs, q'. do 2 (split; [done |]). split; [|split; [done |]].
  { rewrite P, filter_app, filter_Forall_id, filter_Forall_nil;
      [by rewrite app_nil_r | | done].
    eapply Forall_impl; [exact Hgt |]. simpl. lia. }
  split; [done |]. split; [|done].
  intros key l. destruct Hwf as (_ & Hm & _). destruct Hwf' as (_ & Hm' & _).
  rewrite (Hm' key l), (Hm key l), (key_payloads _ _ _ Hpay), Prest.
  rewrite list_elem_of_filter. tauto.
Qed.

(** C4.  After any run of [Add], [Remove] and [Ready] (and [Next]) calls on
    a new queue: no item that is not at the root is earlier than its
    parent, the key index holds exactly the items of the slice, each under
    its own key, and every item records its position in the slice. *)
Theorem invariants_after_calls clock cs :
  let q := do_calls cs (Queue_New clock) in
  (forall k c p, 0 < k ->
     item_at q k = Some c -> item_at q ((k - 1) / 2) = Some p ->
     (item_t p <= item_t c)%Z) /\
  (forall key l, q_m q !! key = Some l <->
     l ∈ q_items q /\ item_key <$> q_store q !! l = Some key) /\
  (forall k, k < length (q_items q) ->
     exists it, item_at q k = Some it /\ item_i it = k).
Proof.
  intros q.
  destruct (do_calls_wf cs (Queue_New clock) (Queue_New_wf clock))
    as (Hp & Hm & Hh).
  split; [exact Hh |]. split; [exact Hm |].
  intros k Hk. destruct (lookup_lt_is_Some_2 _ _ Hk) as [l Hl].
  destruct (Hp _ _ Hl) as (it & Hit & Hi).
  exists it. split; [|done]. unfold item_at. fold q. by rewrite Hl.
Qed.

(** C5.  [Add] with a key that is in the key index panics with the
    duplicate-key error and leaves the queue as it was. *)
Theorem Queue_Add_duplicate_spec q key value t :
  is_Some (q_m q !! key) ->
  Queue_Add key value t q = (Panic (DuplicateKey key), q).
Proof. intros [l Hl]. by eapply Queue_Add_duplicate. Qed.

(** C6.  On a well-formed queue [Remove] of a key that is not present
    returns without a panic and leaves the queue as it was; [Remove] of a
    key that is present takes its item out of the slice and the key out of
    the index, and nothing else changes. *)
Theorem Queue_Remove_spec q key :
  wf q ->
  match q_m q !! key with
  | None => Queue_Remove key q = (Ok tt, q)
  | Some l =>
      exists q',
        Queue_Remove key q = (Ok tt, q') /\
        q_m q' = delete key (q_m q) /\
        q_items q ≡ₚ l :: q_items q' /\
        (l ∉ q_items q') /\
        payloads q' = payloads q /\
        wf q'
  end.
Proof.
  intros Hwf. destruct (q_m q !! key) as [l|] eqn:E.
  - destruct (Queue_Remove_ok q key l Hwf E)
      as (q' & E' & Hwf' & _ & Em & P & Hpay).
    exists q'. do 3 (split; [done |]). split; [|done].
    assert (NoDup (l :: q_items q')) as Hnd.
    { rewrite <- P. apply positions_NoDup, Hwf. }
    by apply NoDup_cons in Hnd as [? _].
  - by apply Queue_Remove_absent.
Qed.

(** C7.  On a well-formed queue [Next] returns nil exactly when the slice
    is empty, and leaves the queue as it was; otherwise it returns the
    handle the clock gives for the duration from [Now] to the deadline of
    the root, which is the earliest deadline in the queue as it stands at
    the call. *)
Theorem Queue_Next_spec q :
  wf q ->
  ((Queue_Next q).1 = Ok None <-> q_items q = []) /\
  (Queue_Next q).2 = q /\
  (forall r, q_items q !! 0 = Some r ->
     (Queue_Next q).1 =
       Ok (Some (After (q_time q)
                       (Time_Sub (deadline q r) (Now (q_time q))))) /\
     forall l, l ∈ q_items q -> (deadline q r <= deadline q l)%Z).
Proof.
  intros Hwf. rewrite (Queue_Next_ok q Hwf). simpl.
  split; [|split; [done |]].
  - destruct (q_items q) as [|r s]; simpl; split; congruence.
  - intros r Hr. rewrite Hr. split; [done |].
    intros l Hl. by apply wf_root_min.
Qed.

(** C9.  On a well-formed queue, the item of a key [k] that is present
    stays in the queue with its value and its deadline when another key
    [k'] is added or removed. *)
Theorem other_key_kept q k l it k' value t :
  wf q ->
  q_m q !! k = Some l -> q_store q !! l = Some it -> k' <> k ->
  let kept q' :=
    q_m q' !! k = Some l /\ l ∈ q_items q' /\
    exists it', q_store q' !! l = Some it' /\
      item_key it' = k /\ item_value it' = item_value it /\
      item_t it' = item_t it in
  (q_m q !! k' = None ->
   exists q', Queue_Add k' value t q = (Ok tt, q') /\ kept q') /\
  (exists q', Queue_Remove k' q = (Ok tt, q') /\ kept q').
Proof.
  intros Hwf Hk Hit Hne kept. pose proof Hwf as (Hp & Hm & _).
  destruct (proj1 (Hm k l) Hk) as [Hin Hkey].
  rewrite Hit in Hkey. simpl in Hkey. injection Hkey as Hkey.
  assert (forall q', l ∈ q_items q' ->
            q_m q' !! k = Some l ->
            payload <$> q_store q' !! l = Some (payload it) -> kept q') as Hkept.
  { intros q' Hin' Hk' Hpay. split; [done |]. split; [done |].
    destruct (q_store q' !! l) as [it'|]; [|done].
    exists it'. split; [done |]. simpl in Hpay. unfold payload in Hpay.
    repeat split; congruence. }
  split.
  - intros Hnone.
    destruct (Queue_Add_ok q k' value t Hwf Hnone)
      as (q' & E' & _ & _ & Em & P & Hpay).
    exists q'. split; [done |]. apply Hkept.
    + rewrite P. by apply elem_of_cons; right.
    + by rewrite Em, lookup_insert_ne.
    + rewrite <- list_lookup_fmap. fold (payloads q'). rewrite Hpay.
      rewrite lookup_app_l.
      * unfold payloads. by rewrite list_lookup_fmap, Hit.
      * unfold payloads. rewrite length_fmap. by eapply lookup_lt_Some.
  - destruct (q_m q !! k') as [l'|] eqn:E.
    + destruct (Queue_Remove_ok q k' l' Hwf E)
        as (q' & E' & _ & _ & Em & P & Hpay).
      exists q'. split; [done |]. apply Hkept.
      * rewrite P in Hin. apply elem_of_cons in Hin as [->|Hin]; [|done].
        destruct (proj1 (Hm k' l') E) as [_ Hk'].
        rewrite Hit in Hk'. simpl in Hk'. congruence.
      * by rewrite Em, lookup_delete_ne.
      * by rewrite (payloads_lookup _ _ _ Hpay), Hit.
    + exists q. split; [by apply Queue_Remove_absent |]. apply Hkept; try done.
      by rewrite Hit.
Qed.

(** C2.  [Schedule.Add] reads the key and the delay of the operation and
    puts the operation into the queue under that key, with the deadline
    [Now() + delay]; the method itself has no result ([Ok tt]). *)
Theorem Schedule_Add_spec {O : @Operation K V} s (op : V) :
  wf (s_q s) -> q_m (s_q s) !! Key op = None ->
  exists s' l it,
    Schedule_Add op s = (Ok tt, s', (Delay op).2) /\
    s_time s' = s_time s /\
    q_m (s_q s') !! Key op = Some l /\
    l ∈ q_items (s_q s') /\
    q_store (s_q s') !! l = Some it /\
    item_key it = Key op /\
    item_value it = (Delay op).2 /\
    item_t it = Time_Add (Now (s_time s)) (Delay op).1 /\
    wf (s_q s').
Proof.
  intros Hwf Hnone. unfold Schedule_Add, on_queue.
  destruct (Delay op) as [delay op']. simpl.
  destruct (Queue_Add_ok (s_q s) (Key op) op'
              (Time_Add (Now (s_time s)) delay) Hwf Hnone)
    as (q' & E' & Hwf' & _ & Em & P & Hpay).
  rewrite E'.
  set (x := length (q_store (s_q s))) in *.
  assert (payloads q' !! x =
          Some (Key op, op', Time_Add (Now (s_time s)) delay)) as Hx.
  { rewrite Hpay, lookup_app_r by (unfold payloads, x; by rewrite length_fmap).
    unfold payloads, x. rewrite length_fmap.
    by replace (length (q_store (s_q s)) - length (q_store (s_q s))) with 0 by lia. }
  unfold payloads in Hx. rewrite list_lookup_fmap in Hx.
  destruct (q_store q' !! x) as [it|] eqn:Hit; [|done].
  simpl in Hx. unfold payload in Hx.
  eexists _, x, it. split; [done |]. split; [done |]. simpl.
  split; [by rewrite Em, lookup_insert_eq |].
  split; [rewrite P; by apply elem_of_cons; left |].
  injection Hx as Hk Hv Ht. by do 4 (split; [done |]).
Qed.

(** * Further properties of the queue *)

Lemma payload_old_kept q q' new l :
  positions_recorded q -> l ∈ q_items q ->
  payloads q' = payloads q ++ [new] ->
  payload <$> q_store q' !! l = payload <$> q_store q !! l.
Proof.
  intros Hp Hin Hpay. apply list_elem_of_lookup in Hin as [k Hk].
  pose proof (positions_lt _ _ _ Hp Hk) as Hlt.
  rewrite <- !list_lookup_fmap. fold (payloads q') (payloads q).
  rewrite Hpay, lookup_app_l; [done |].
  unfold payloads. by rewrite length_fmap.
Qed.

Lemma deadline_payload q l p :
  payload <$> q_store q !! l = Some p -> deadline q l = p.2.
Proof.
  unfold deadline. destruct (q_store q !! l) as [it|]; [|done].
  simpl. by intros [= <-].
Qed.

Lemma deadline_same_payload q q' l :
  payload <$> q_store q' !! l = payload <$> q_store q !! l ->
  deadline q' l = deadline q l.
Proof.
  unfold deadline, payload.
  destruct (q_store q' !! l), (q_store q !! l); simpl; congruence.
Qed.

Lemma payload_new q q' new :
  payloads q' = payloads q ++ [new] ->
  payload <$> q_store q' !! length (q_store q) = Some new.
Proof.
  intros Hpay. rewrite <- list_lookup_fmap. fold (payloads q'). rewrite Hpay.
  rewrite lookup_app_r by (unfold payloads; by rewrite length_fmap).
  unfold payloads. rewrite length_fmap.
  by replace (length (q_store q) - length (q_store q)) with 0 by lia.
Qed.

(** X1.  [Add] of a key that is not in the index of a well-formed queue
    succeeds: the index maps the key to a new item that holds the key, the
    value and the deadline, the slice gains this item and no other, the
    items that were there keep their key, value and deadline, and the
    queue stays well formed. *)
Theorem Queue_Add_fresh q key value t :
  wf q -> q_m q !! key = None ->
  exists q' x,
    Queue_Add key value t q = (Ok tt, q') /\
    q_m q' = <[key := x]> (q_m q) /\
    (x ∉ q_items q) /\
    q_items q' ≡ₚ x :: q_items q /\
    payload <$> q_store q' !! x = Some (key, value, t) /\
    (forall l, l ∈ q_items q ->
       payload <$> q_store q' !! l = payload <$> q_store q !! l) /\
    wf q'.
Proof.
  intros Hwf Hnone. pose proof Hwf as (Hp & _).
  destruct (Queue_Add_ok q key value t Hwf Hnone)
    as (q' & E & Hwf' & _ & Em & P & Hpay).
  exists q', (length (q_store q)). do 2 (split; [done |]).
  split; [|split; [done |]; split; [|split; [|done]]].
  - intros Hin. apply list_elem_of_lookup in Hin as [k Hk].
    pose proof (positions_lt _ _ _ Hp Hk). lia.
  - rewrite <- list_lookup_fmap. fold (payloads q'). rewrite Hpay.
    rewrite lookup_app_r by (unfold payloads; by rewrite length_fmap).
    unfold payloads. rewrite length_fmap.
    by replace (length (q_store q) - length (q_store q)) with 0 by lia.
  - intros l Hin. by eapply payload_old_kept.
Qed.

(** X2.  [Add] of a new key followed by [Remove] of that key gives back
    the key index as it was and a slice with the same items, each with its
    key, value and deadline. *)
Theorem Queue_Add_then_Remove q key value t :
  wf q -> q_m q !! key = None ->
  exists q1 q2,
    Queue_Add key value t q = (Ok tt, q1) /\
    Queue_Remove key q1 = (Ok tt, q2) /\
    q_m q2 = q_m q /\
    q_items q2 ≡ₚ q_items q /\
    (forall l, l ∈ q_items q ->
       payload <$> q_store q2 !! l = payload <$> q_store q !! l) /\
    wf q2.
Proof.
  intros Hwf Hnone. pose proof Hwf as (Hp & _).
  destruct (Queue_Add_ok q key value t Hwf Hnone)
    as (q1 & E1 & Hwf1 & _ & Em1 & P1 & Hpay1).
  assert (q_m q1 !! key = Some (length (q_store q))) as Hk1.
  { by rewrite Em1, lookup_insert_eq. }
  destruct (Queue_Remove_ok q1 key _ Hwf1 Hk1)
    as (q2 & E2 & Hwf2 & _ & Em2 & P2 & Hpay2).
  exists q1, q2. do 2 (split; [done |]).
  split; [by rewrite Em2, Em1, delete_insert_id |].
  split; [|split; [|done]].
  - rewrite P1 in P2. symmetry. by eapply Permutation_cons_inv.
  - intros l Hin. rewrite (payloads_lookup _ _ _ Hpay2).
    by eapply payload_old_kept.
Qed.

(** X3.  After [Remove] of a key, present or not, [Add] of the same key
    does not panic: the key is in the index again, with the new value and
    deadline. *)
Theorem Queue_Remove_then_Add q key value t :
  wf q ->
  exists q1 q2 x,
    Queue_Remove key q = (Ok tt, q1) /\
    Queue_Add key value t q1 = (Ok tt, q2) /\
    q_m q2 !! key = Some x /\
    payload <$> q_store q2 !! x = Some (key, value, t) /\
    wf q2.
Proof.
  intros Hwf.
  assert (exists q1, Queue_Remove key q = (Ok tt, q1) /\ wf q1 /\
                     q_m q1 !! key = None) as (q1 & E1 & Hwf1 & Hnone).
  { destruct (q_m q !! key) as [l|] eqn:E.
    - destruct (Queue_Remove_ok q key l Hwf E) as (q1 & E1 & Hwf1 & _ & Em & _).
      exists q1. do 2 (split; [done |]). by rewrite Em, lookup_delete_eq.
    - exists q. by rewrite (Queue_Remove_absent _ _ E). }
  destruct (Queue_Add_ok q1 key value t Hwf1 Hnone)
    as (q2 & E2 & Hwf2 & _ & Em2 & _ & Hpay2).
  exists q1, q2, (length (q_store q1)). do 2 (split; [done |]).
  split; [by rewrite Em2, lookup_insert_eq |]. split; [|done].
  rewrite <- list_lookup_fmap. fold (payloads q2). rewrite Hpay2.
  rewrite lookup_app_r by (unfold payloads; by rewrite length_fmap).
  unfold payloads. rewrite length_fmap.
  by replace (length (q_store q1) - length (q_store q1)) with 0 by lia.
Qed.

(** Nothing is due: the loop of [Ready] stops at once. *)
Lemma Queue_Ready_none q now :
  wf q -> Forall (fun l => (now < deadline q l)%Z) (q_items q) ->
  Queue_Ready now q = (Ok [], q).
Proof.
  intros (Hp & _) Hall. unfold Queue_Ready. mstep (Len_ok q).
  rewrite Ready_loop_S. mstep (Len_ok q).
  destruct (decide (0 < length (q_items q))) as [Hlen|Hlen]; [|done].
  destruct (lookup_lt_is_Some_2 _ _ Hlen) as [r Hr].
  destruct (Hp _ _ Hr) as (it & Hit & _).
  mstep (index_ok _ _ _ Hr). mstep (deref_ok _ _ _ Hit).
  assert (now < item_t it)%Z as Hlate.
  { rewrite Forall_forall in Hall.
    specialize (Hall r ltac:(by eapply list_elem_of_lookup_2)).
    unfold deadline in Hall. by rewrite Hit in Hall. }
  unfold Time_After. destruct (Z.ltb_spec now (item_t it)); [done | lia].
Qed.

(** X4.  When every item of a well-formed queue is due after [now], the
    empty queue included, [Ready now] returns nothing and leaves the queue
    as it was. *)
Theorem Queue_Ready_nothing_due q now :
  wf q -> Forall (fun l => (now < deadline q l)%Z) (q_items q) ->
  Queue_Ready now q = (Ok [], q).
Proof. apply Queue_Ready_none. Qed.

(** X5.  After [Ready now], a second [Ready] at [now] or at an earlier
    time returns nothing and leaves the queue as the first call left
    it. *)
Theorem Queue_Ready_twice q now :
  wf q ->
  exists vs q',
    Queue_Ready now q = (Ok vs, q') /\
    forall now', (now' <= now)%Z -> Queue_Ready now' q' = (Ok [], q').
Proof.
  intros Hwf.
  destruct (Queue_Ready_ok q now Hwf)
    as (ps & vs & q' & E & Hwf' & _ & Hpay & _ & _ & _ & _ & Hgt).
  exists vs, q'. split; [done |]. intros now' Hle.
  apply Queue_Ready_none; [done |].
  eapply Forall_impl; [exact Hgt |]. simpl. intros l Hl.
  rewrite (deadline_payloads _ _ _ Hpay). lia.
Qed.

(** X6.  When every item of a well-formed queue is due at or before
    [now], [Ready now] returns as many values as the queue holds items and
    leaves the slice and the key index empty. *)
Theorem Queue_Ready_all_due q now :
  wf q -> Forall (fun l => (deadline q l <= now)%Z) (q_items q) ->
  exists vs q',
    Queue_Ready now q = (Ok vs, q') /\
    length vs = length (q_items q) /\
    q_items q' = [] /\ q_m q' = ∅.
Proof.
  intros Hwf Hall.
  destruct (Queue_Ready_ok q now Hwf)
    as (ps & vs & q' & E & Hwf' & _ & Hpay & P & Hvs & _ & _ & Hgt).
  assert (q_items q' = []) as Hnil.
  { destruct (q_items q') as [|l rest] eqn:Ei; [done |].
    apply Forall_cons in Hgt as [Hl _].
    rewrite Forall_forall in Hall.
    specialize (Hall l ltac:(rewrite P; apply elem_of_app; right; by left)).
    lia. }
  exists vs, q'. split; [done |]. split; [|split; [done |]].
  - rewrite <- (Forall2_length _ _ _ Hvs), P, Hnil, app_nil_r. done.
  - apply map_empty. intros key.
    destruct (q_m q' !! key) as [l|] eqn:E'; [|done].
    destruct Hwf' as (_ & Hm' & _). apply Hm' in E' as [Hin _].
    rewrite Hnil in Hin. by apply not_elem_of_nil in Hin.
Qed.

(** X7.  In a well-formed queue the key index has as many entries as the
    slice has items. *)
Theorem wf_index_size q :
  wf q -> size (q_m q) = length (q_items q).
Proof.
  intros (Hp & Hm & _).
  rewrite <- length_map_to_list, <- (length_fmap snd).
  apply Permutation_length, NoDup_Permutation.
  - apply NoDup_fmap_2_strong; [|apply NoDup_map_to_list].
    intros [k1 l1] [k2 l2] H1 H2 Hl. simpl in Hl. subst l2.
    apply elem_of_map_to_list in H1, H2.
    apply Hm in H1 as [_ H1]. apply Hm in H2 as [_ H2]. congruence.
  - by apply positions_NoDup.
  - intros l. rewrite list_elem_of_fmap. split.
    + intros ([k l'] & -> & Hin). apply elem_of_map_to_list in Hin.
      by apply Hm in Hin as [? _].
    + intros Hin. pose proof Hin as Hin'.
      apply list_elem_of_lookup in Hin' as [k Hk].
      destruct (Hp _ _ Hk) as (it & Hit & _).
      exists (item_key it, l). split; [done |].
      apply elem_of_map_to_list, Hm. split; [done |]. by rewrite Hit.
Qed.

(** X8.  In a well-formed queue no two positions of the slice hold items
    with the same key. *)
Theorem wf_keys_distinct q k1 k2 l1 l2 :
  wf q ->
  q_items q !! k1 = Some l1 -> q_items q !! k2 = Some l2 ->
  item_key <$> q_store q !! l1 = item_key <$> q_store q !! l2 ->
  k1 = k2.
Proof.
  intros (Hp & Hm & _) H1 H2 Hkey.
  destruct (Hp _ _ H1) as (it1 & Hit1 & _).
  assert (q_m q !! item_key it1 = Some l1) as E1.
  { apply Hm. split; [by eapply list_elem_of_lookup_2 | by rewrite Hit1]. }
  assert (q_m q !! item_key it1 = Some l2) as E2.
  { apply Hm. split; [by eapply list_elem_of_lookup_2 |].
    by rewrite <- Hkey, Hit1. }
  assert (l1 = l2) as -> by congruence.
  by eapply positions_inj.
Qed.

(** X9.  After [Add] of a new key, [Next] waits for the earlier of the
    new deadline and the earliest deadline the queue held before. *)
Theorem Queue_Next_after_Add q key value t :
  wf q -> q_m q !! key = None ->
  exists q',
    Queue_Add key value t q = (Ok tt, q') /\
    (Queue_Next q').1 =
      Ok (Some (After (q_time q)
                  (Time_Sub
                     (match q_items q !! 0 with
                      | Some r => Z.min t (deadline q r)
                      | None => t
                      end)
                     (Now (q_time q))))).
Proof.
  intros Hwf Hnone. pose proof Hwf as (Hp & _).
  destruct (Queue_Add_ok q key value t Hwf Hnone)
    as (q' & E & Hwf' & Et & _ & P & Hpay).
  exists q'. split; [done |].
  rewrite (Queue_Next_ok q' Hwf'). simpl.
  set (x := length (q_store q)) in *.
  assert (deadline q' x = t) as Hdx.
  { exact (deadline_payload _ _ _ (payload_new _ _ _ Hpay)). }
  assert (forall l, l ∈ q_items q -> deadline q' l = deadline q l) as Hold.
  { intros l Hin. apply deadline_same_payload. by eapply payload_old_kept. }
  destruct (q_items q' !! 0) as [r'|] eqn:Hr'.
  2:{ apply lookup_ge_None in Hr'. apply Permutation_length in P.
      simpl in P. lia. }
  rewrite Et. do 4 f_equal.
  assert (r' ∈ q_items q') as Hin' by (by eapply list_elem_of_lookup_2).
  pose proof (wf_root_min q' r' x Hwf' Hr'
                ltac:(rewrite P; by apply elem_of_cons; left)) as Hlex.
  rewrite Hdx in Hlex.
  rewrite P in Hin'. apply elem_of_cons in Hin' as [->|Hin'].
  - destruct (q_items q !! 0) as [r|] eqn:Hr; [|done].
    assert (r ∈ q_items q) as Hrin by (by eapply list_elem_of_lookup_2).
    pose proof (wf_root_min q' x r Hwf' Hr'
                  ltac:(rewrite P; by apply elem_of_cons; right)) as Hle.
    rewrite Hdx, (Hold r Hrin) in Hle. lia.
  - destruct (q_items q !! 0) as [r|] eqn:Hr.
    2:{ apply lookup_ge_None in Hr. destruct (q_items q); [|simpl in Hr; lia].
        by apply not_elem_of_nil in Hin'. }
    assert (r ∈ q_items q) as Hrin by (by eapply list_elem_of_lookup_2).
    pose proof (wf_root_min q' r' r Hwf' Hr'
                  ltac:(rewrite P; by apply elem_of_cons; right)) as Hle.
    pose proof (wf_root_min q r r' Hwf Hr Hin') as Hge.
    rewrite (Hold r' Hin') in *. rewrite (Hold r Hrin) in Hle. lia.
Qed.

(** X10.  An item that has been removed is not returned by a later
    [Ready]: none of the items returned is the removed one or holds its
    key, and the key stays out of the index. *)
Theorem Queue_Remove_then_Ready q key l now :
  wf q -> q_m q !! key = Some l ->
  exists q1 ps vs q2,
    Queue_Remove key q = (Ok tt, q1) /\
    Queue_Ready now q1 = (Ok vs, q2) /\
    Forall2 (fun l' v => item_value <$> q_store q1 !! l' = Some v) ps vs /\
    Forall (fun l' => l' <> l /\ item_key <$> q_store q1 !! l' <> Some key) ps /\
    q_m q2 !! key = None.
Proof.
  intros Hwf Hk. pose proof Hwf as (Hp & _).
  destruct (Queue_Remove_ok q key l Hwf Hk)
    as (q1 & E1 & Hwf1 & _ & Em1 & P1 & _).
  assert (q_m q1 !! key = None) as Hnone by (by rewrite Em1, lookup_delete_eq).
  assert (l ∉ q_items q1) as Hl.
  { assert (NoDup (l :: q_items q1)) as Hnd
      by (rewrite <- P1; by apply positions_NoDup).
    by apply NoDup_cons in Hnd as [? _]. }
  assert (forall l', l' ∈ q_items q1 ->
            item_key <$> q_store q1 !! l' <> Some key) as Hnokey.
  { intros l' Hin Hkey. destruct Hwf1 as (_ & Hm1 & _).
    assert (q_m q1 !! key = Some l') by (by apply Hm1). congruence. }
  destruct (Queue_Ready_ok q1 now Hwf1)
    as (ps & vs & q2 & E2 & Hwf2 & _ & Hpay & P2 & Hvs & _).
  exists q1, ps, vs, q2. do 3 (split; [done |]). split.
  - apply Forall_forall. intros l' Hin.
    assert (l' ∈ q_items q1) as Hin1
      by (rewrite P2; apply elem_of_app; by left).
    split; [by intros -> | by apply Hnokey].
  - destruct (q_m q2 !! key) as [l'|] eqn:E'; [|done].
    destruct Hwf2 as (_ & Hm2 & _). apply Hm2 in E' as [Hin Hkey].
    rewrite (key_payloads _ _ _ Hpay) in Hkey.
    destruct (Hnokey l'); [|done].
    rewrite P2. apply elem_of_app. by right.
Qed.

(** X11.  [Swap] of two positions of the slice exchanges the two items
    and records in each its new position; the other positions, the key
    index and the key, value and deadline of every item are untouched. *)
Theorem queueItems_Swap_spec q i j a b :
  positions_recorded q ->
  q_items q !! i = Some a -> q_items q !! j = Some b ->
  exists q',
    queueItems_Swap i j q = (Ok tt, q') /\
    q_items q' !! i = Some b /\ q_items q' !! j = Some a /\
    (forall k, k <> i -> k <> j -> q_items q' !! k = q_items q !! k) /\
    positions_recorded q' /\
    q_m q' = q_m q /\ payloads q' = payloads q.
Proof.
  intros Hp Ha Hb.
  destruct (Swap_ok q i j a b Hp Ha Hb) as (q' & E & Ei & (_ & Fm & Fp) & Hp').
  pose proof (lookup_lt_Some _ _ _ Ha) as Hi.
  pose proof (lookup_lt_Some _ _ _ Hb) as Hj.
  exists q'. split; [done |]. rewrite Ei.
  split; [|split; [|split; [|done]]].
  - destruct (decide (i = j)) as [->|Hij].
    + rewrite list_lookup_insert_eq by (by rewrite length_insert). congruence.
    + rewrite list_lookup_insert_ne by done. by apply list_lookup_insert_eq.
  - apply list_lookup_insert_eq. by rewrite length_insert.
  - intros k Hki Hkj. by rewrite !list_lookup_insert_ne.
Qed.

(** X12.  [Swap] with a position outside the slice panics with an index
    out of range and changes nothing. *)
Theorem queueItems_Swap_out_of_range q i j :
  length (q_items q) <= i \/ length (q_items q) <= j ->
  queueItems_Swap i j q = (Panic IndexOutOfRange, q).
Proof.
  intros Hout. unfold queueItems_Swap.
  destruct (q_items q !! j) as [b|] eqn:Hb.
  - mstep (index_ok _ _ _ Hb).
    destruct Hout as [Hi|Hj]; [|apply lookup_lt_Some in Hb; lia].
    apply lookup_ge_None in Hi. unfold bind, index, bind, get_items.
    by rewrite Hi.
  - unfold bind, index, bind, get_items. by rewrite Hb.
Qed.

(** X13.  [Push] of an item followed by [Pop] returns that item and gives
    back the slice as it was; in between the item records the end of the
    slice as its position. *)
Theorem queueItems_Push_Pop q x it :
  q_store q !! x = Some it ->
  exists q1 q2,
    queueItems_Push x q = (Ok tt, q1) /\
    q_items q1 = q_items q ++ [x] /\
    item_i <$> q_store q1 !! x = Some (length (q_items q)) /\
    queueItems_Pop q1 = (Ok x, q2) /\
    q_items q2 = q_items q /\
    q_m q2 = q_m q /\ payloads q2 = payloads q.
Proof.
  intros Hx. pose proof (lookup_lt_Some _ _ _ Hx) as Hlt.
  set (n := length (q_items q)).
  set (q0 := upd_store (<[x := with_i n it]> (q_store q)) q).
  set (q1 := upd_items (q_items q ++ [x]) q0).
  assert (q_items q1 !! n = Some x) as Hn.
  { simpl. rewrite lookup_app_r by done.
    by replace (n - length (q_items q)) with 0 by (unfold n; lia). }
  exists q1, (upd_items (take n (q_items q1)) q1).
  split; [|split; [done |]; split; [|split; [|split; [|split; [done |]]]]].
  - unfold queueItems_Push. mstep (Len_ok q).
    by mstep (set_i_ok q x n it Hx).
  - simpl. by rewrite list_lookup_insert_eq.
  - unfold queueItems_Pop. mstep (Len_ok q1).
    replace (length (q_items q1) - 1) with n
      by (simpl; rewrite length_app; simpl; unfold n; lia).
    by mstep (index_ok _ _ _ Hn).
  - simpl. unfold n. by rewrite take_app_length.
  - apply (payloads_set_i q _ _ _ Hx).
Qed.

(** ** The schedule *)

Lemma do_schedule_call_ok {O : @Operation K V} (c : schedule_call) s :
  schedule_ok s -> schedule_ok (do_schedule_call c s).
Proof.
  intros [Hwf Ht]. destruct c as [op|key|now|]; simpl.
  - unfold Schedule_Add, on_queue. destruct (Delay op) as [delay op']. simpl.
    destruct (q_m (s_q s) !! Key op) as [l|] eqn:E.
    + by rewrite (Queue_Add_duplicate _ _ _ _ _ E).
    + destruct (Queue_Add_ok (s_q s) (Key op) op'
                  (Time_Add (Now (s_time s)) delay) Hwf E)
        as (q' & -> & Hwf' & Et & _).
      split; [done |]. simpl. congruence.
  - unfold Schedule_Remove, on_queue.
    destruct (q_m (s_q s) !! key) as [l|] eqn:E.
    + destruct (Queue_Remove_ok (s_q s) key l Hwf E)
        as (q' & -> & Hwf' & Et & _).
      split; [done |]. simpl. congruence.
    + by rewrite (Queue_Remove_absent _ _ E).
  - unfold Schedule_Ready, on_queue.
    destruct (Queue_Ready_ok (s_q s) now Hwf)
      as (ps & vs & q' & -> & Hwf' & Et & _).
    split; [done |]. simpl. congruence.
  - unfold Schedule_Next, on_queue. by rewrite (Queue_Next_ok _ Hwf).
Qed.

(** X14.  After any run of [Add], [Remove], [Ready] and [Next] calls on a
    new schedule, the queue of the schedule is well formed and still reads
    the clock the schedule was made with. *)
Theorem schedule_ok_after_calls {O : @Operation K V} clock
  (cs : list schedule_call) :
  schedule_ok (do_schedule_calls cs (NewSchedule clock)) /\
  s_time (do_schedule_calls cs (NewSchedule clock)) = clock.
Proof.
  assert (forall (run : list schedule_call) s, schedule_ok s ->
            schedule_ok (do_schedule_calls run s) /\
            s_time (do_schedule_calls run s) = s_time s) as Hrun.
  { clear cs. induction run as [|c run IH]; intros s Hs; [done |].
    simpl. destruct (IH (do_schedule_call c s)) as [Hok Ht];
      [by apply do_schedule_call_ok |].
    split; [done |]. rewrite Ht.
    destruct c; simpl; unfold Schedule_Add, Schedule_Remove, Schedule_Ready,
      Schedule_Next, on_queue.
    - destruct (Delay op). simpl. by destruct (Queue_Add _ _ _ _).
    - by destruct (Queue_Remove _ _).
    - by destruct (Queue_Ready _ _).
    - by destruct (Queue_Next _). }
  apply Hrun. split; [apply Queue_New_wf | done].
Qed.

(** X15.  An operation added to a schedule is returned by [Ready] once
    its deadline, [Now() + delay], has been reached, and its key has then
    left the index. *)
Theorem Schedule_Add_then_Ready_due {O : @Operation K V} s (op : V) now :
  wf (s_q s) -> q_m (s_q s) !! Key op = None ->
  (Time_Add (Now (s_time s)) (Delay op).1 <= now)%Z ->
  exists s1 vs s2,
    Schedule_Add op s = (Ok tt, s1, (Delay op).2) /\
    Schedule_Ready now s1 = (Ok vs, s2) /\
    (Delay op).2 ∈ vs /\
    q_m (s_q s2) !! Key op = None.
Proof.
  intros Hwf Hnone Hdue. unfold Schedule_Add, Schedule_Ready, on_queue.
  destruct (Delay op) as [delay op']. simpl in *.
  destruct (Queue_Add_ok (s_q s) (Key op) op'
              (Time_Add (Now (s_time s)) delay) Hwf Hnone)
    as (q1 & -> & Hwf1 & _ & Em & P & Hpay).
  set (x := length (q_store (s_q s))) in *.
  assert (payload <$> q_store q1 !! x =
          Some (Key op, op', Time_Add (Now (s_time s)) delay)) as Hx.
  { rewrite <- list_lookup_fmap. fold (payloads q1). rewrite Hpay.
    rewrite lookup_app_r by (unfold payloads, x; by rewrite length_fmap).
    unfold payloads, x. rewrite length_fmap.
    by replace (length (q_store (s_q s)) - length (q_store (s_q s)))
      with 0 by lia. }
  destruct (Queue_Ready_ok q1 now Hwf1)
    as (ps & vs & q2 & E2 & Hwf2 & _ & Hpay2 & P2 & Hvs & _ & _ & Hgt).
  eexists _, vs, _. split; [done |]. simpl. rewrite E2.
  split; [done |]. simpl.
  assert (x ∉ q_items q2) as Hx2.
  { intros Hin. rewrite Forall_forall in Hgt. specialize (Hgt x Hin).
    rewrite (deadline_payload _ _ _ Hx) in Hgt. simpl in Hgt. lia. }
  split.
  - assert (x ∈ ps) as Hin.
    { assert (x ∈ ps ++ q_items q2) as Hin
        by (rewrite <- P2, P; by apply elem_of_cons; left).
      apply elem_of_app in Hin as [?|?]; done. }
    apply list_elem_of_lookup in Hin as [k Hk].
    destruct (Forall2_lookup_l _ _ _ _ _ Hvs Hk) as (v & Hv & Hval).
    assert (v = op') as ->.
    { destruct (q_store q1 !! x) as [it|]; [|done].
      simpl in *. unfold payload in Hx. congruence. }
    by eapply list_elem_of_lookup_2.
  - destruct (q_m q2 !! Key op) as [l|] eqn:E'; [|done].
    destruct Hwf2 as (_ & Hm2 & _). apply Hm2 in E' as [Hin Hkey].
    rewrite (key_payloads _ _ _ Hpay2) in Hkey.
    destruct Hwf1 as (_ & Hm1 & _).
    assert (q_m q1 !! Key op = Some l) as E1.
    { apply Hm1. split; [|done]. rewrite P2. apply elem_of_app. by right. }
    rewrite Em, lookup_insert_eq in E1. congruence.
Qed.

(** X16.  An operation added to a schedule stays in the queue, under its
    key and with its deadline, through a [Ready] that comes before the
    deadline. *)
Theorem Schedule_Add_then_Ready_early {O : @Operation K V} s (op : V) now :
  wf (s_q s) -> q_m (s_q s) !! Key op = None ->
  (now < Time_Add (Now (s_time s)) (Delay op).1)%Z ->
  exists s1 vs s2 x,
    Schedule_Add op s = (Ok tt, s1, (Delay op).2) /\
    Schedule_Ready now s1 = (Ok vs, s2) /\
    q_m (s_q s2) !! Key op = Some x /\
    x ∈ q_items (s_q s2) /\
    payload <$> q_store (s_q s2) !! x =
      Some (Key op, (Delay op).2, Time_Add (Now (s_time s)) (Delay op).1).
Proof.
  intros Hwf Hnone Hearly. unfold Schedule_Add, Schedule_Ready, on_queue.
  destruct (Delay op) as [delay op']. simpl in *.
  destruct (Queue_Add_ok (s_q s) (Key op) op'
              (Time_Add (Now (s_time s)) delay) Hwf Hnone)
    as (q1 & -> & Hwf1 & _ & Em & P & Hpay).
  set (x := length (q_store (s_q s))) in *.
  assert (payload <$> q_store q1 !! x =
          Some (Key op, op', Time_Add (Now (s_time s)) delay)) as Hx.
  { rewrite <- list_lookup_fmap. fold (payloads q1). rewrite Hpay.
    rewrite lookup_app_r by (unfold payloads, x; by rewrite length_fmap).
    unfold payloads, x. rewrite length_fmap.
    by replace (length (q_store (s_q s)) - length (q_store (s_q s)))
      with 0 by lia. }
  destruct (Queue_Ready_ok q1 now Hwf1)
    as (ps & vs & q2 & E2 & Hwf2 & _ & Hpay2 & P2 & _ & _ & Hle & _).
  eexists _, vs, _, x. split; [done |]. simpl. rewrite E2.
  split; [done |]. simpl.
  assert (x ∈ q_items q2) as Hin.
  { assert (x ∈ ps ++ q_items q2) as Hin
      by (rewrite <- P2, P; by apply elem_of_cons; left).
    apply elem_of_app in Hin as [Hin|?]; [|done].
    rewrite Forall_forall in Hle. specialize (Hle x Hin).
    rewrite (deadline_payload _ _ _ Hx) in Hle. simpl in Hle. lia. }
  assert (payload <$> q_store q2 !! x =
          Some (Key op, op', Time_Add (Now (s_time s)) delay)) as Hx2.
  { by rewrite (payloads_lookup _ _ _ Hpay2). }
  split; [|done].
  destruct Hwf2 as (_ & Hm2 & _). apply Hm2. split; [done |].
  destruct (q_store q2 !! x) as [it|]; [|done].
  simpl in *. unfold payload in Hx2. congruence.
Qed.

End TimeQueueProperties.

(** ** Exponential backoff *)

Section Backoff.
Local Open Scope Z_scope.

Lemma wrap64_small z : - 2 ^ 63 <= z < 2 ^ 63 -> wrap64 z = z.
Proof.
  intros Hz. unfold wrap64.
  rewrite Z.mod_small by lia. lia.
Qed.

Lemma Delay_low e :
  e < minRetryDelay -> ExponentialBackoff_Delay e = (e, minRetryDelay).
Proof.
  intros He. unfold ExponentialBackoff_Delay.
  destruct (Z.ltb_spec e minRetryDelay); [reflexivity | lia].
Qed.

Lemma Delay_mid e :
  minRetryDelay <= e < 2 ^ 62 ->
  ExponentialBackoff_Delay e = (e, Z.min (2 * e) maxRetryDelay).
Proof.
  intros [Hlo Hhi]. unfold ExponentialBackoff_Delay.
  destruct (Z.ltb_spec e minRetryDelay); [lia |].
  rewrite wrap64_small.
  2:{ unfold minRetryDelay, Second, Nanosecond in *. lia. }
  destruct (Z.ltb_spec maxRetryDelay (e * 2)); f_equal; lia.
Qed.

Lemma Delay_calls_S n e :
  Delay_calls (S n) e =
  ((ExponentialBackoff_Delay e).1 ::
     (Delay_calls n (ExponentialBackoff_Delay e).2).1,
   (Delay_calls n (ExponentialBackoff_Delay e).2).2).
Proof.
  change (Delay_calls (S n) e) with
    (let '(r, e1) := ExponentialBackoff_Delay e in
     let '(rs, e2) := Delay_calls n e1 in (r :: rs, e2)).
  destruct (ExponentialBackoff_Delay e) as [r e1]. simpl.
  destruct (Delay_calls n e1); reflexivity.
Qed.

(** Once the receiver is inside [[minRetryDelay, maxRetryDelay]] it stays
    there, and everything returned from then on is below the ceiling. *)
Lemma Delay_calls_inside n : forall e,
  minRetryDelay <= e <= maxRetryDelay ->
  minRetryDelay <= (Delay_calls n e).2 <= maxRetryDelay /\
  Forall (fun r => r <= maxRetryDelay) (Delay_calls n e).1.
Proof.
  induction n as [|n IH]; intros e He.
  - simpl. split; [lia | constructor].
  - assert (Hd : ExponentialBackoff_Delay e = (e, Z.min (2 * e) maxRetryDelay)).
    { apply Delay_mid. unfold maxRetryDelay, Minute, Second, Nanosecond in *. lia. }
    rewrite Delay_calls_S, Hd. cbn [fst snd].
    destruct (IH (Z.min (2 * e) maxRetryDelay)) as [IH1 IH2].
    { unfold minRetryDelay, maxRetryDelay, Minute, Second, Nanosecond in *. lia. }
    split; [exact IH1 | constructor; [lia | exact IH2]].
Qed.

Lemma Delay_calls_at_ceiling n :
  Delay_calls n maxRetryDelay = (replicate n maxRetryDelay, maxRetryDelay).
Proof.
  induction n as [|n IH]; [reflexivity |].
  rewrite Delay_calls_S.
  replace (ExponentialBackoff_Delay maxRetryDelay)
    with (maxRetryDelay, maxRetryDelay) by reflexivity.
  cbn [fst snd]. rewrite IH. reflexivity.
Qed.

Lemma Delay_calls_app n k : forall e,
  Delay_calls (n + k) e =
  ((Delay_calls n e).1 ++ (Delay_calls k (Delay_calls n e).2).1,
   (Delay_calls k (Delay_calls n e).2).2).
Proof.
  induction n as [|n IH]; intros e.
  - simpl. destruct (Delay_calls k e); reflexivity.
  - replace (S n + k)%nat with (S (n + k)) by lia.
    rewrite !Delay_calls_S, IH. reflexivity.
Qed.

(** C1, as the code has it.  Below the floor (the zero value included)
    [Delay] returns the stored duration itself and stores the floor, so
    the calls on such a receiver [e] return [e], 30s, 1m, 2m, 4m, 8m, 16m,
    30m, and 30m from then on. *)
Theorem Delay_below_floor e :
  e < minRetryDelay ->
  ExponentialBackoff_Delay e = (e, minRetryDelay) /\
  forall n : nat,
    Delay_calls (8 + n) e =
    ([e; 30 * Second; 1 * Minute; 2 * Minute; 4 * Minute; 8 * Minute;
      16 * Minute; 30 * Minute] ++ replicate n (30 * Minute),
     30 * Minute).
Proof.
  intros He. split; [by apply Delay_low |].
  intros n. rewrite Delay_calls_app.
  assert (Delay_calls 8 e =
          ([e; 30 * Second; 1 * Minute; 2 * Minute; 4 * Minute; 8 * Minute;
            16 * Minute; 30 * Minute], maxRetryDelay)) as ->.
  { rewrite Delay_calls_S, (Delay_low e He). reflexivity. }
  cbn [fst snd]. by rewrite Delay_calls_at_ceiling.
Qed.

(** C1 as stated fails on the zero value: the first call returns zero, not
    the floor, and the run of calls starts with zero. *)
Lemma Delay_fresh_not_floor :
  fresh < minRetryDelay /\
  (ExponentialBackoff_Delay fresh).1 = 0 /\
  (ExponentialBackoff_Delay fresh).1 <> minRetryDelay /\
  (Delay_calls 9 fresh).1 <>
    [30 * Second; 30 * Second; 1 * Minute; 2 * Minute; 4 * Minute;
     8 * Minute; 16 * Minute; 30 * Minute; 30 * Minute].
Proof. repeat split; discriminate. Qed.

(** C8, as the code has it.  From a state [d] at or above the floor whose
    double does not overflow [int64], [Delay] returns [d] and stores
    [min (2 * d) maxRetryDelay]; at the ceiling the state stays at the
    ceiling. *)
Theorem Delay_doubles d :
  minRetryDelay <= d < 2 ^ 62 ->
  ExponentialBackoff_Delay d = (d, Z.min (2 * d) maxRetryDelay) /\
  (d = maxRetryDelay -> (ExponentialBackoff_Delay d).2 = maxRetryDelay).
Proof.
  intros Hd. split; [by apply Delay_mid |].
  intros ->. reflexivity.
Qed.

(** C8 as stated fails where the doubling overflows: from [2^62] the
    stored state becomes [-2^63]. *)
Lemma Delay_overflow :
  minRetryDelay <= 2 ^ 62 <= maxDuration /\
  ExponentialBackoff_Delay (2 ^ 62) = (2 ^ 62, - 2 ^ 63) /\
  (ExponentialBackoff_Delay (2 ^ 62)).2 <> Z.min (2 * 2 ^ 62) maxRetryDelay.
Proof. repeat split; discriminate. Qed.

(** C10.  After one call or more on the zero value the stored duration is
    between the floor and the ceiling, and no call has returned more than
    the ceiling. *)
Theorem Delay_calls_bounded (n : nat) :
  (0 < n)%nat ->
  minRetryDelay <= (Delay_calls n fresh).2 <= maxRetryDelay /\
  Forall (fun r => r <= maxRetryDelay) (Delay_calls n fresh).1.
Proof.
  intros Hn. destruct n as [|n]; [lia |].
  rewrite Delay_calls_S.
  replace (ExponentialBackoff_Delay fresh) with (0, minRetryDelay) by reflexivity.
  cbn [fst snd].
  destruct (Delay_calls_inside n minRetryDelay) as [H1 H2]; [done |].
  split; [done |]. constructor; [done | exact H2].
Qed.

Lemma Delay_calls_sorted_inside n : forall e,
  minRetryDelay <= e <= maxRetryDelay ->
  StronglySorted Z.le (Delay_calls n e).1 /\
  Forall (Z.le e) (Delay_calls n e).1.
Proof.
  induction n as [|n IH]; intros e He.
  - simpl. split; constructor.
  - assert (Hd : ExponentialBackoff_Delay e = (e, Z.min (2 * e) maxRetryDelay)).
    { apply Delay_mid. unfold maxRetryDelay, Minute, Second, Nanosecond in *. lia. }
    rewrite Delay_calls_S, Hd. cbn [fst snd].
    destruct (IH (Z.min (2 * e) maxRetryDelay)) as [IH1 IH2].
    { unfold minRetryDelay, maxRetryDelay, Minute, Second, Nanosecond in *. lia. }
    assert (Forall (Z.le e) (Delay_calls n (Z.min (2 * e) maxRetryDelay)).1) as Hall.
    { eapply Forall_impl; [exact IH2 |]. simpl. intros r Hr.
      unfold minRetryDelay, Second, Nanosecond in *. lia. }
    split; constructor; first [done | lia].
Qed.

(** X17.  The delays returned by successive calls on the zero value never
    decrease. *)
Theorem Delay_calls_sorted (n : nat) :
  StronglySorted Z.le (Delay_calls n fresh).1.
Proof.
  destruct n as [|n]; [constructor |].
  rewrite Delay_calls_S.
  replace (ExponentialBackoff_Delay fresh) with (0, minRetryDelay) by reflexivity.
  cbn [fst snd].
  destruct (Delay_calls_sorted_inside n minRetryDelay) as [H1 H2]; [done |].
  constructor; [done |].
  eapply Forall_impl; [exact H2 |]. simpl. intros r Hr.
  unfold minRetryDelay, Second, Nanosecond in *. lia.
Qed.

End Backoff.

(** * Concrete runs *)

Lemma q_two_wf : wf q_two.
Proof. apply do_calls_wf, Queue_New_wf. Qed.

Example backoff_schedule :
  add_remove_rounds 9 (7, fresh) (NewSchedule clock0) =
  [0; 30 * Second; 1 * Minute; 2 * Minute; 4 * Minute; 8 * Minute;
   16 * Minute; 30 * Minute; 30 * Minute]%Z.
Proof. vm_compute. reflexivity. Qed.

(** The scenario of [TestNext]: delays of 3s, 1.5s, 2s and 2.5s under the
    keys 0 to 3; at 1.5s the operation of key 1 is ready; with key 3
    removed, the operations of keys 2 and 0 are ready at 4s, in this
    order. *)
Example scenario_next :
  let ms (n : nat) : Z := (Z.of_nat n * 1000000 * Nanosecond)%Z in
  let add op s := (Schedule_Add (O := constant_delay) op s).1.2 in
  let s4 :=
    add (3, ms 2500) (add (2, ms 2000) (add (1, ms 1500)
      (add (0, ms 3000) (NewSchedule clock0)))) in
  (Schedule_Next s4).1 = Ok (Some (ms 1500)) /\
  let '(r1, s5) := Schedule_Ready (ms 1500) s4 in
  r1 = Ok [(1, ms 1500)] /\
  let '(_, s6) := Schedule_Remove 3 s5 in
  (Schedule_Ready (ms 4000) s6).1 = Ok [(2, ms 2000); (0, ms 3000)].
Proof. vm_compute. repeat split. Qed.

Lemma add_remove_rounds_S n op s :
  add_remove_rounds (S n) op s =
  let '(_, s1, op1) := Schedule_Add (O := backoff_operation) op s in
  let ts := times (s_q s1) in
  let '(_, s2) :=
    Schedule_Remove (Key (Operation := backoff_operation) op1) s1 in
  ts ++ add_remove_rounds n op1 s2.
Proof. reflexivity. Qed.

(** X18.  The loop of [TestExponentialBackoff], for any number of rounds:
    on a schedule whose queue is empty, adding and then removing the same
    backoff operation round after round schedules it at [Now()] plus the
    delays that the successive calls of [Delay] return. *)
Theorem add_remove_rounds_spec n : forall k e s,
  wf (s_q s) -> q_items (s_q s) = [] -> q_m (s_q s) = ∅ ->
  add_remove_rounds n (k, e) s =
  (fun d => Time_Add (Now (s_time s)) d) <$> (Delay_calls n e).1.
Proof.
  induction n as [|n IH]; intros k e s Hwf Hitems Hm; [reflexivity |].
  set (e' := (ExponentialBackoff_Delay e).2).
  set (t := Time_Add (Now (s_time s)) e).
  assert (q_m (s_q s) !! k = None) as Hnone by (by rewrite Hm).
  destruct (Queue_Add_ok (s_q s) k (k, e') t Hwf Hnone)
    as (q1 & E1 & Hwf1 & _ & Em1 & P1 & Hpay1).
  set (x := length (q_store (s_q s))) in *.
  rewrite Hitems in P1. apply Permutation_singleton_r in P1.
  assert (q_m q1 !! k = Some x) as Hk1 by (by rewrite Em1, lookup_insert_eq).
  destruct (Queue_Remove_ok q1 k x Hwf1 Hk1)
    as (q2 & E2 & Hwf2 & _ & Em2 & P2 & _).
  rewrite P1 in P2. apply Permutation_cons_inv in P2.
  apply Permutation_nil_l in P2.
  set (s1 := {| s_time := s_time s; s_q := q1 |}).
  set (s2 := {| s_time := s_time s; s_q := q2 |}).
  assert (Schedule_Add (O := backoff_operation) (k, e) s = (Ok tt, s1, (k, e')))
    as HA.
  { unfold Schedule_Add, on_queue.
    change (Delay (Operation := backoff_operation) (k, e)) with (e, (k, e')).
    change (Key (Operation := backoff_operation) (k, e)) with k.
    cbv beta iota zeta. fold t. by rewrite E1. }
  assert (Schedule_Remove (Key (Operation := backoff_operation) (k, e')) s1 =
          (Ok tt, s2)) as HR.
  { unfold Schedule_Remove, on_queue.
    change (Key (Operation := backoff_operation) (k, e')) with k.
    change (s_q s1) with q1. by rewrite E2. }
  rewrite add_remove_rounds_S, HA. cbv beta iota zeta. rewrite HR.
  rewrite (IH k e' s2 Hwf2 (eq_sym P2)).
  2:{ change (s_q s2) with q2. rewrite Em2, Em1, Hm.
      by rewrite delete_insert_id. }
  rewrite Delay_calls_S. cbn [fst snd]. rewrite fmap_cons. fold e'.
  change (s_time s2) with (s_time s). change (s_q s1) with q1.
  change ((ExponentialBackoff_Delay e).1) with e. fold t.
  unfold times. rewrite P1. simpl. f_equal.
  exact (deadline_payload _ _ _ (payload_new _ _ _ Hpay1)).
Qed.

Lemma Queue_Ready_spec_witness :
  wf q_two /\
  exists ps vs q',
    Queue_Ready 200 q_two = (Ok vs, q') /\
    Forall2 (fun l v => item_value <$> q_store q_two !! l = Some v) ps vs /\
    ps ≡ₚ filter (fun l => (deadline q_two l <= 200)%Z) (q_items q_two) /\
    StronglySorted (fun a b => (deadline q_two a <= deadline q_two b)%Z) ps /\
    q_items q' ≡ₚ filter (fun l => (200 < deadline q_two l)%Z) (q_items q_two) /\
    (forall key l, q_m q' !! key = Some l <->
                   q_m q_two !! key = Some l /\ (200 < deadline q_two l)%Z) /\
    payloads q' = payloads q_two /\
    wf q'.
Proof.
  split; [exact q_two_wf |].
  apply (Queue_Ready_spec q_two 200%Z). exact q_two_wf.
Defined.

Lemma Queue_Add_duplicate_spec_witness :
  is_Some (q_m q_two !! 1) /\
  Queue_Add 1 11 5%Z q_two = (Panic (DuplicateKey 1), q_two).
Proof.
  assert (is_Some (q_m q_two !! 1)) as Hk by (exists 0; vm_compute; reflexivity).
  split; [exact Hk |].
  apply (Queue_Add_duplicate_spec q_two 1 11 5%Z). exact Hk.
Defined.

Lemma Queue_Remove_spec_witness :
  wf q_two /\
  match q_m q_two !! 2 with
  | None => Queue_Remove 2 q_two = (Ok tt, q_two)
  | Some l =>
      exists q',
        Queue_Remove 2 q_two = (Ok tt, q') /\
        q_m q' = delete 2 (q_m q_two) /\
        q_items q_two ≡ₚ l :: q_items q' /\
        (l ∉ q_items q') /\
        payloads q' = payloads q_two /\
        wf q'
  end.
Proof.
  split; [exact q_two_wf |].
  apply (Queue_Remove_spec q_two 2). exact q_two_wf.
Defined.

Lemma Queue_Next_spec_witness :
  wf q_two /\
  ((Queue_Next q_two).1 = Ok None <-> q_items q_two = []) /\
  (Queue_Next q_two).2 = q_two /\
  (forall r, q_items q_two !! 0 = Some r ->
     (Queue_Next q_two).1 =
       Ok (Some (After (q_time q_two)
                       (Time_Sub (deadline q_two r) (Now (q_time q_two))))) /\
     forall l, l ∈ q_items q_two -> (deadline q_two r <= deadline q_two l)%Z).
Proof.
  split; [exact q_two_wf |].
  apply (Queue_Next_spec q_two). exact q_two_wf.
Defined.

Lemma other_key_kept_witness :
  let it := {| item_i := 1; item_key := 1; item_value := 10;
               item_t := 300%Z |} in
  wf q_two /\ q_m q_two !! 1 = Some 0 /\ q_store q_two !! 0 = Some it /\
  3 <> 1 /\
  let kept q' :=
    q_m q' !! 1 = Some 0 /\ 0 ∈ q_items q' /\
    exists it', q_store q' !! 0 = Some it' /\
      item_key it' = 1 /\ item_value it' = item_value it /\
      item_t it' = item_t it in
  (q_m q_two !! 3 = None ->
   exists q', Queue_Add 3 30 50%Z q_two = (Ok tt, q') /\ kept q') /\
  (exists q', Queue_Remove 3 q_two = (Ok tt, q') /\ kept q').
Proof.
  intros it.
  assert (q_m q_two !! 1 = Some 0) as Hk by (vm_compute; reflexivity).
  assert (q_store q_two !! 0 = Some it) as Hit by (vm_compute; reflexivity).
  assert (3 <> 1) as Hne by lia.
  split; [exact q_two_wf |]. split; [exact Hk |]. split; [exact Hit |].
  split; [exact Hne |].
  exact (other_key_kept q_two 1 0 it 3 30 50%Z q_two_wf Hk Hit Hne).
Defined.

Lemma Schedule_Add_spec_witness :
  let s := NewSchedule (K := nat) (V := nat * Z) clock0 in
  let op := (1, (3 * Second)%Z) in
  wf (s_q s) /\ q_m (s_q s) !! 1 = None /\
  exists s' l it,
    Schedule_Add (O := constant_delay) op s = (Ok tt, s', op) /\
    s_time s' = s_time s /\
    q_m (s_q s') !! 1 = Some l /\
    l ∈ q_items (s_q s') /\
    q_store (s_q s') !! l = Some it /\
    item_key it = 1 /\
    item_value it = op /\
    item_t it = Time_Add (Now (s_time s)) (3 * Second) /\
    wf (s_q s').
Proof.
  intros s op.
  assert (wf (s_q s)) as Hwf by apply Queue_New_wf.
  assert (q_m (s_q s) !! 1 = None) as Hnone by reflexivity.
  split; [exact Hwf |]. split; [exact Hnone |].
  exact (Schedule_Add_spec (O := constant_delay) s op Hwf Hnone).
Defined.

Lemma Delay_below_floor_witness :
  (fresh < minRetryDelay)%Z /\
  ExponentialBackoff_Delay fresh = (fresh, minRetryDelay) /\
  forall n : nat,
    Delay_calls (8 + n) fresh =
    ([fresh; 30 * Second; 1 * Minute; 2 * Minute; 4 * Minute; 8 * Minute;
      16 * Minute; 30 * Minute] ++ replicate n (30 * Minute),
     30 * Minute)%Z.
Proof.
  assert (fresh < minRetryDelay)%Z as H by reflexivity.
  split; [exact H | exact (Delay_below_floor fresh H)].
Defined.

Lemma Delay_doubles_witness :
  (minRetryDelay <= 1 * Minute < 2 ^ 62)%Z /\
  ExponentialBackoff_Delay (1 * Minute) =
    (1 * Minute, Z.min (2 * (1 * Minute)) maxRetryDelay)%Z /\
  ((1 * Minute)%Z = maxRetryDelay ->
   (ExponentialBackoff_Delay (1 * Minute)).2 = maxRetryDelay).
Proof.
  assert (minRetryDelay <= 1 * Minute < 2 ^ 62)%Z as H.
  { split; [discriminate | reflexivity]. }
  split; [exact H | exact (Delay_doubles (1 * Minute)%Z H)].
Defined.

Lemma Delay_calls_bounded_witness :
  0 < 9 /\
  (minRetryDelay <= (Delay_calls 9 fresh).2 <= maxRetryDelay)%Z /\
  Forall (fun r => (r <= maxRetryDelay)%Z) (Delay_calls 9 fresh).1.
Proof.
  assert (0 < 9) as H by lia.
  split; [exact H | exact (Delay_calls_bounded 9 H)].
Defined.

(** ** Concrete runs of the further properties *)

Lemma q_two_absent : q_m q_two !! 3 = None.
Proof. vm_compute. reflexivity. Qed.

Lemma q_two_root : q_items q_two !! 0 = Some 1.
Proof. vm_compute. reflexivity. Qed.

Lemma q_two_second : q_items q_two !! 1 = Some 0.
Proof. vm_compute. reflexivity. Qed.

Lemma Queue_Add_fresh_witness :
  wf q_two /\ q_m q_two !! 3 = None /\
  exists q' x,
    Queue_Add 3 30 50%Z q_two = (Ok tt, q') /\
    q_m q' = <[3 := x]> (q_m q_two) /\
    (x ∉ q_items q_two) /\
    q_items q' ≡ₚ x :: q_items q_two /\
    payload <$> q_store q' !! x = Some (3, 30, 50%Z) /\
    (forall l, l ∈ q_items q_two ->
       payload <$> q_store q' !! l = payload <$> q_store q_two !! l) /\
    wf q'.
Proof.
  split; [exact q_two_wf |]. split; [exact q_two_absent |].
  exact (Queue_Add_fresh q_two 3 30 50%Z q_two_wf q_two_absent).
Defined.

Lemma Queue_Add_then_Remove_witness :
  wf q_two /\ q_m q_two !! 3 = None /\
  exists q1 q2,
    Queue_Add 3 30 50%Z q_two = (Ok tt, q1) /\
    Queue_Remove 3 q1 = (Ok tt, q2) /\
    q_m q2 = q_m q_two /\
    q_items q2 ≡ₚ q_items q_two /\
    (forall l, l ∈ q_items q_two ->
       payload <$> q_store q2 !! l = payload <$> q_store q_two !! l) /\
    wf q2.
Proof.
  split; [exact q_two_wf |]. split; [exact q_two_absent |].
  exact (Queue_Add_then_Remove q_two 3 30 50%Z q_two_wf q_two_absent).
Defined.

Lemma Queue_Remove_then_Add_witness :
  wf q_two /\
  exists q1 q2 x,
    Queue_Remove 1 q_two = (Ok tt, q1) /\
    Queue_Add 1 11 5%Z q1 = (Ok tt, q2) /\
    q_m q2 !! 1 = Some x /\
    payload <$> q_store q2 !! x = Some (1, 11, 5%Z) /\
    wf q2.
Proof.
  split; [exact q_two_wf |].
  exact (Queue_Remove_then_Add q_two 1 11 5%Z q_two_wf).
Defined.

Lemma Queue_Ready_nothing_due_witness :
  wf q_two /\
  Forall (fun l => (50 < deadline q_two l)%Z) (q_items q_two) /\
  Queue_Ready 50 q_two = (Ok [], q_two).
Proof.
  assert (Forall (fun l => (50 < deadline q_two l)%Z) (q_items q_two)) as Hall.
  { replace (q_items q_two) with [1; 0] by (vm_compute; reflexivity).
    repeat (constructor; [by vm_compute |]). constructor. }
  split; [exact q_two_wf |]. split; [exact Hall |].
  exact (Queue_Ready_nothing_due q_two 50%Z q_two_wf Hall).
Defined.

Lemma Queue_Ready_twice_witness :
  wf q_two /\
  exists vs q',
    Queue_Ready 200 q_two = (Ok vs, q') /\
    forall now', (now' <= 200)%Z -> Queue_Ready now' q' = (Ok [], q').
Proof.
  split; [exact q_two_wf |].
  exact (Queue_Ready_twice q_two 200%Z q_two_wf).
Defined.

Lemma Queue_Ready_all_due_witness :
  wf q_two /\
  Forall (fun l => (deadline q_two l <= 300)%Z) (q_items q_two) /\
  exists vs q',
    Queue_Ready 300 q_two = (Ok vs, q') /\
    length vs = length (q_items q_two) /\
    q_items q' = [] /\ q_m q' = ∅.
Proof.
  assert (Forall (fun l => (deadline q_two l <= 300)%Z) (q_items q_two)) as Hall.
  { replace (q_items q_two) with [1; 0] by (vm_compute; reflexivity).
    repeat (constructor; [by vm_compute |]). constructor. }
  split; [exact q_two_wf |]. split; [exact Hall |].
  exact (Queue_Ready_all_due q_two 300%Z q_two_wf Hall).
Defined.

Lemma wf_index_size_witness :
  wf q_two /\ size (q_m q_two) = length (q_items q_two).
Proof.
  split; [exact q_two_wf | exact (wf_index_size q_two q_two_wf)].
Defined.

Lemma wf_keys_distinct_witness :
  wf q_two /\
  q_items q_two !! 0 = Some 1 /\ q_items q_two !! 0 = Some 1 /\
  item_key <$> q_store q_two !! 1 = item_key <$> q_store q_two !! 1 /\
  0 = 0.
Proof.
  split; [exact q_two_wf |]. do 2 (split; [exact q_two_root |]).
  split; [reflexivity |].
  exact (wf_keys_distinct q_two 0 0 1 1 q_two_wf q_two_root q_two_root eq_refl).
Defined.

Lemma Queue_Next_after_Add_witness :
  wf q_two /\ q_m q_two !! 3 = None /\
  exists q',
    Queue_Add 3 30 50%Z q_two = (Ok tt, q') /\
    (Queue_Next q').1 =
      Ok (Some (After (q_time q_two)
                  (Time_Sub
                     (match q_items q_two !! 0 with
                      | Some r => Z.min 50 (deadline q_two r)
                      | None => 50%Z
                      end)
                     (Now (q_time q_two))))).
Proof.
  split; [exact q_two_wf |]. split; [exact q_two_absent |].
  exact (Queue_Next_after_Add q_two 3 30 50%Z q_two_wf q_two_absent).
Defined.

Lemma Queue_Remove_then_Ready_witness :
  wf q_two /\ q_m q_two !! 2 = Some 1 /\
  exists q1 ps vs q2,
    Queue_Remove 2 q_two = (Ok tt, q1) /\
    Queue_Ready 500 q1 = (Ok vs, q2) /\
    Forall2 (fun l' v => item_value <$> q_store q1 !! l' = Some v) ps vs /\
    Forall (fun l' => l' <> 1 /\ item_key <$> q_store q1 !! l' <> Some 2) ps /\
    q_m q2 !! 2 = None.
Proof.
  assert (q_m q_two !! 2 = Some 1) as Hk by (vm_compute; reflexivity).
  split; [exact q_two_wf |]. split; [exact Hk |].
  exact (Queue_Remove_then_Ready q_two 2 1 500%Z q_two_wf Hk).
Defined.

Lemma queueItems_Swap_spec_witness :
  positions_recorded q_two /\
  q_items q_two !! 0 = Some 1 /\ q_items q_two !! 1 = Some 0 /\
  exists q',
    queueItems_Swap 0 1 q_two = (Ok tt, q') /\
    q_items q' !! 0 = Some 0 /\ q_items q' !! 1 = Some 1 /\
    (forall k, k <> 0 -> k <> 1 -> q_items q' !! k = q_items q_two !! k) /\
    positions_recorded q' /\
    q_m q' = q_m q_two /\ payloads q' = payloads q_two.
Proof.
  assert (positions_recorded q_two) as Hp by apply q_two_wf.
  split; [exact Hp |]. split; [exact q_two_root |].
  split; [exact q_two_second |].
  exact (queueItems_Swap_spec q_two 0 1 1 0 Hp q_two_root q_two_second).
Defined.

Lemma queueItems_Swap_out_of_range_witness :
  (length (q_items q_two) <= 5 \/ length (q_items q_two) <= 0) /\
  queueItems_Swap 5 0 q_two = (Panic IndexOutOfRange, q_two).
Proof.
  assert (length (q_items q_two) <= 5 \/ length (q_items q_two) <= 0) as H.
  { left. vm_compute. lia. }
  split; [exact H | exact (queueItems_Swap_out_of_range q_two 5 0 H)].
Defined.

Lemma queueItems_Push_Pop_witness :
  let it := {| item_i := 1; item_key := 1; item_value := 10;
               item_t := 300%Z |} in
  q_store q_two !! 0 = Some it /\
  exists q1 q2,
    queueItems_Push 0 q_two = (Ok tt, q1) /\
    q_items q1 = q_items q_two ++ [0] /\
    item_i <$> q_store q1 !! 0 = Some (length (q_items q_two)) /\
    queueItems_Pop q1 = (Ok 0, q2) /\
    q_items q2 = q_items q_two /\
    q_m q2 = q_m q_two /\ payloads q2 = payloads q_two.
Proof.
  intros it.
  assert (q_store q_two !! 0 = Some it) as Hit by (vm_compute; reflexivity).
  split; [exact Hit | exact (queueItems_Push_Pop q_two 0 it Hit)].
Defined.

Lemma Schedule_Add_then_Ready_due_witness :
  let s := NewSchedule (K := nat) (V := nat * Z) clock0 in
  let op := (1, (3 * Second)%Z) in
  wf (s_q s) /\ q_m (s_q s) !! 1 = None /\
  (Time_Add (Now (s_time s)) (3 * Second) <= 5 * Second)%Z /\
  exists s1 vs s2,
    Schedule_Add (O := constant_delay) op s = (Ok tt, s1, op) /\
    Schedule_Ready (5 * Second) s1 = (Ok vs, s2) /\
    op ∈ vs /\
    q_m (s_q s2) !! 1 = None.
Proof.
  intros s op.
  assert (wf (s_q s)) as Hwf by apply Queue_New_wf.
  assert (q_m (s_q s) !! 1 = None) as Hnone by reflexivity.
  assert (Time_Add (Now (s_time s)) (3 * Second) <= 5 * Second)%Z as Hdue
    by discriminate.
  split; [exact Hwf |]. split; [exact Hnone |]. split; [exact Hdue |].
  exact (Schedule_Add_then_Ready_due (O := constant_delay) s op
           (5 * Second)%Z Hwf Hnone Hdue).
Defined.

Lemma Schedule_Add_then_Ready_early_witness :
  let s := NewSchedule (K := nat) (V := nat * Z) clock0 in
  let op := (1, (3 * Second)%Z) in
  wf (s_q s) /\ q_m (s_q s) !! 1 = None /\
  (1 * Second < Time_Add (Now (s_time s)) (3 * Second))%Z /\
  exists s1 vs s2 x,
    Schedule_Add (O := constant_delay) op s = (Ok tt, s1, op) /\
    Schedule_Ready (1 * Second) s1 = (Ok vs, s2) /\
    q_m (s_q s2) !! 1 = Some x /\
    x ∈ q_items (s_q s2) /\
    payload <$> q_store (s_q s2) !! x =
      Some (1, op, Time_Add (Now (s_time s)) (3 * Second)).
Proof.
  intros s op.
  assert (wf (s_q s)) as Hwf by apply Queue_New_wf.
  assert (q_m (s_q s) !! 1 = None) as Hnone by reflexivity.
  assert (1 * Second < Time_Add (Now (s_time s)) (3 * Second))%Z as Hearly
    by reflexivity.
  split; [exact Hwf |]. split; [exact Hnone |]. split; [exact Hearly |].
  exact (Schedule_Add_then_Ready_early (O := constant_delay) s op
           (1 * Second)%Z Hwf Hnone Hearly).
Defined.

Lemma add_remove_rounds_spec_witness :
  let s := NewSchedule (K := nat) (V := nat * Z) clock0 in
  wf (s_q s) /\ q_items (s_q s) = [] /\ q_m (s_q s) = ∅ /\
  add_remove_rounds 3 (7, fresh) s =
  (fun d => Time_Add (Now (s_time s)) d) <$> (Delay_calls 3 fresh).1.
Proof.
  intros s.
  assert (wf (s_q s)) as Hwf by apply Queue_New_wf.
  split; [exact Hwf |]. do 2 (split; [reflexivity |]).
  exact (add_remove_rounds_spec 3 7 fresh s Hwf eq_refl eq_refl).
Defined.
